(** * setk / sptk: separation and localisation kernels

    A shallow embedding of the numerical kernels of the [sptk] scripts:

    - [auxiva]                 ([apply_auxiva.py])
    - [ml_ssl], [srp_ssl], [music_ssl]   ([libs/ssl.py])
    - [compute_spatial_feats]  ([compute_ipd_and_linear_srp.py])
    - [compute_mask]           ([oracle_separate.py])

    Conventions of the embedding.

    - A numpy float is a real number of [R]; a numpy complex number is a
      pair of reals.  Rounding, infinities and NaN are not represented, so
      every statement below is about exact arithmetic.
    - A numpy array is a record made of its shape and an index function;
      only the entries inside the shape are meaningful.
    - A Python exception is a value [Raise e] of the type [result]. *)

From Stdlib Require Import Reals Lra Lia List Arith ZArith String Bool.
From Stdlib Require Import FunctionalExtensionality.
Import ListNotations.

Local Open Scope R_scope.

(** ** Exceptions *)

Inductive exn : Type :=
| ValueError
| RuntimeError
| IndexError
| LinAlgError.

Inductive result (A : Type) : Type :=
| Ok (a : A)
| Raise (e : exn).

Arguments Ok {A} a.
Arguments Raise {A} e.

Definition bind {A B : Type} (m : result A) (k : A -> result B) : result B :=
  match m with
  | Ok a => k a
  | Raise e => Raise e
  end.

Notation "x <- m ;; k" := (bind m (fun x => k))
  (at level 61, m at next level, right associativity).

Definition raises {A : Type} (m : result A) : Prop :=
  exists e, m = Raise e.

(** [for i in range(n): s = body(i, s)], the first exception ends the loop. *)
Fixpoint for_range {S : Type} (n : nat) (body : nat -> S -> result S) (s : S)
  : result S :=
  match n with
  | O => Ok s
  | Datatypes.S k => s' <- for_range k body s ;; body k s'
  end.

(** ** Complex numbers *)

Definition C : Type := (R * R)%type.

Definition RtoC (x : R) : C := (x, 0).
Definition C0 : C := (0, 0).
Definition C1 : C := (1, 0).
Definition Cadd (a b : C) : C := (fst a + fst b, snd a + snd b).
Definition Csub (a b : C) : C := (fst a - fst b, snd a - snd b).
Definition Cmul (a b : C) : C :=
  (fst a * fst b - snd a * snd b, fst a * snd b + snd a * fst b).
Definition Cconj (a : C) : C := (fst a, - snd a).
Definition Cabs2 (a : C) : R := fst a * fst a + snd a * snd a.
(** [np.abs] on a complex number. *)
Definition Cabs (a : C) : R := sqrt (Cabs2 a).
Definition Cinv (a : C) : C := (fst a / Cabs2 a, - snd a / Cabs2 a).
Definition Cdiv (a b : C) : C := Cmul a (Cinv b).
Definition Cscal (r : R) (a : C) : C := (r * fst a, r * snd a).
Definition Copp (a : C) : C := (- fst a, - snd a).

(** [np.angle]: the argument [arctan2(imag, real)] of a complex number. *)
Definition np_angle (z : C) : R :=
  let x := fst z in
  let y := snd z in
  if Rlt_dec 0 x then atan (y / x)
  else if Rlt_dec x 0 then
         (if Rlt_dec y 0 then atan (y / x) - PI else atan (y / x) + PI)
  else if Rlt_dec 0 y then PI / 2
  else if Rlt_dec y 0 then - (PI / 2)
  else 0.

(** Sums over [range(n)]. *)
Fixpoint Rsum (n : nat) (f : nat -> R) : R :=
  match n with
  | O => 0
  | S k => Rsum k f + f k
  end.

Fixpoint Csum (n : nat) (f : nat -> C) : C :=
  match n with
  | O => C0
  | S k => Cadd (Csum k f) (f k)
  end.

(** ** Arrays *)

Record Arr1 (A : Type) : Type := mkArr1 {
  len : nat;
  at1 : nat -> A
}.

Record Arr2 (A : Type) : Type := mkArr2 {
  rows : nat;
  cols : nat;
  at2 : nat -> nat -> A
}.

Record Arr3 (A : Type) : Type := mkArr3 {
  dim0 : nat;
  dim1 : nat;
  dim2 : nat;
  at3 : nat -> nat -> nat -> A
}.

Arguments mkArr1 {A}.
Arguments len {A}.
Arguments at1 {A}.
Arguments mkArr2 {A}.
Arguments rows {A}.
Arguments cols {A}.
Arguments at2 {A}.
Arguments mkArr3 {A}.
Arguments dim0 {A}.
Arguments dim1 {A}.
Arguments dim2 {A}.
Arguments at3 {A}.


Definition arr3_eq {A : Type} (x y : Arr3 A) : Prop :=
  dim0 x = dim0 y /\ dim1 x = dim1 y /\ dim2 x = dim2 y /\
  forall i j k, (i < dim0 x)%nat -> (j < dim1 x)%nat -> (k < dim2 x)%nat ->
                at3 x i j k = at3 y i j k.

(** numpy broadcasting of one axis: equal lengths, or one of them is 1. *)
Definition bcast (a b : nat) : result nat :=
  if (a =? b)%nat then Ok a
  else if (a =? 1)%nat then Ok b
  else if (b =? 1)%nat then Ok a
  else Raise ValueError.

(** Index used on an axis of length [d] when it is broadcast. *)
Definition bix (d i : nat) : nat := if (d =? 1)%nat then O else i.

(** [np.argmax] / [np.argmin] over [range(n)]: the first extremal index;
    an empty sequence is a [ValueError]. *)
Fixpoint argmax_upto (f : nat -> R) (k : nat) : nat :=
  match k with
  | O => O
  | S k' =>
      let b := argmax_upto f k' in
      if Rlt_dec (f b) (f (S k')) then S k' else b
  end.

Fixpoint argmin_upto (f : nat -> R) (k : nat) : nat :=
  match k with
  | O => O
  | S k' =>
      let b := argmin_upto f k' in
      if Rlt_dec (f (S k')) (f b) then S k' else b
  end.

Definition np_argmax (n : nat) (f : nat -> R) : result nat :=
  match n with
  | O => Raise ValueError
  | S k => Ok (argmax_upto f k)
  end.

Definition np_argmin (n : nat) (f : nat -> R) : result nat :=
  match n with
  | O => Raise ValueError
  | S k => Ok (argmin_upto f k)
  end.

(** [np.ones([T, F])]. *)
Definition np_ones (T F : nat) : Arr2 R := mkArr2 T F (fun _ _ => 1).

(** An elementwise binary operation on two 2-D arrays, with broadcasting. *)
Definition bop2 {A B D : Type} (op : A -> B -> D) (x : Arr2 A) (y : Arr2 B)
  : result (Arr2 D) :=
  r <- bcast (rows x) (rows y) ;;
  c <- bcast (cols x) (cols y) ;;
  Ok (mkArr2 r c (fun i j =>
        op (at2 x (bix (rows x) i) (bix (cols x) j))
           (at2 y (bix (rows y) i) (bix (cols y) j)))).

Definition map2d {A B : Type} (g : A -> B) (x : Arr2 A) : Arr2 B :=
  mkArr2 (rows x) (cols x) (fun i j => g (at2 x i j)).

(** A list comprehension whose body may raise. *)
Fixpoint mapM {A B : Type} (g : A -> result B) (l : list A)
  : result (list B) :=
  match l with
  | [] => Ok []
  | a :: l' => b <- g a ;; bs <- mapM g l' ;; Ok (b :: bs)
  end.

(** Indexing an axis of length [n] with a Python integer: negative indices
    count from the end, anything outside [-n, n) is an [IndexError]. *)
Definition np_index (n : nat) (i : Z) : result nat :=
  if ((0 <=? i) && (i <? Z.of_nat n))%Z then Ok (Z.to_nat i)
  else if ((- Z.of_nat n <=? i) && (i <? 0))%Z then Ok (Z.to_nat (Z.of_nat n + i))
  else Raise IndexError.

(** Fancy indexing with a list of non-negative indices: every index has to
    be inside the axis. *)
Definition check_indices (n : nat) (idx : list nat) : result unit :=
  if forallb (fun i => (i <? n)%nat) idx then Ok tt else Raise IndexError.

(** ** Parameters

    What the scripts import from modules that are not part of the kernels:
    numpy's elementary functions whose values on the whole real line are
    not needed, numpy's Hermitian eigensolver, and helpers of [libs]. *)

Section Kernels.

(** [EPSILON] of [libs.utils]: a small positive stabiliser. *)
Variable EPSILON : R.

(** [cmat_abs] of [libs.utils]: the elementwise magnitude of a complex
    matrix. *)
Variable cmat_abs : C -> R.

(** [np.log] and [np.power] on floats. *)
Variable np_log : R -> R.
Variable np_power : R -> R -> R.

(** [np.linalg.eigh] on one [M x M] matrix: the eigenvalues in ascending
    order and the matrix whose column [k] is the eigenvector of eigenvalue
    [k]. *)
Variable eigh : nat -> (nat -> nat -> C) -> (nat -> R) * (nat -> nat -> C).

(** [nextpow2] of [libs.utils]. *)
Variable nextpow2 : Z -> Z.

(** ** libs/ssl.py *)

(** The [mask] argument: a [T x F] array or an [N x T x F] array. *)
Inductive mask_arg : Type :=
| Mask2 (m : Arr2 R)
| Mask3 (m : Arr3 R).

(** What [np.argmax(..., axis=-1)] returns: one index for a 1-D score, an
    array of indices for a 2-D score. *)
Inductive doa : Type :=
| Doa (i : nat)
| Doas (l : Arr1 nat).

(** [np.linalg.norm(sv, axis=1, keepdims=True)], entry [(a, 0, f)]. *)
Definition sv_norm (sv : Arr3 C) (a f : nat) : R :=
  sqrt (Rsum (dim1 sv) (fun m => Cabs2 (at3 sv a m f))).

(** [sv / np.linalg.norm(sv, axis=1, keepdims=True)]. *)
Definition sv_normalize (sv : Arr3 C) : Arr3 C :=
  mkArr3 (dim0 sv) (dim1 sv) (dim2 sv)
         (fun a m f => Cscal (/ sv_norm sv a f) (at3 sv a m f)).

(** [stft / np.maximum(cmat_abs(stft), eps)]. *)
Definition stft_normalize (stft : Arr3 C) (eps : R) : Arr3 C :=
  mkArr3 (dim0 stft) (dim1 stft) (dim2 stft)
         (fun m t f => Cscal (/ Rmax (cmat_abs (at3 stft m t f)) eps)
                             (at3 stft m t f)).

(** [np.abs(np.einsum("mtf,mtf->tf", stft, stft.conj()))]. *)
Definition ml_ssh_cor (stft : Arr3 C) : Arr2 R :=
  mkArr2 (dim1 stft) (dim2 stft)
         (fun t f => Cabs (Csum (dim0 stft) (fun m =>
                       Cmul (at3 stft m t f) (Cconj (at3 stft m t f))))).

(** [np.abs(np.einsum("amf,mtf->atf", sv, stft.conj())) ** 2]: the labels
    [m] and [f] are shared by the two operands and are broadcast. *)
Definition ml_ssv_cor (sv stft : Arr3 C) : result (Arr3 R) :=
  Mb <- bcast (dim1 sv) (dim0 stft) ;;
  Fb <- bcast (dim2 sv) (dim2 stft) ;;
  Ok (mkArr3 (dim0 sv) (dim1 stft) Fb
        (fun a t f =>
           Rsqr (Cabs (Csum Mb (fun m =>
             Cmul (at3 sv a (bix (dim1 sv) m) (bix (dim2 sv) f))
                  (Cconj (at3 stft (bix (dim0 stft) m) t
                                   (bix (dim2 stft) f)))))))).

(** [ssh_cor[None, ...] - ssv_cor / (1 + eps)]. *)
Definition ml_delta (ssh_cor : Arr2 R) (ssv_cor : Arr3 R) (eps : R)
  : result (Arr3 R) :=
  Ab <- bcast 1 (dim0 ssv_cor) ;;
  Tb <- bcast (rows ssh_cor) (dim1 ssv_cor) ;;
  Fb <- bcast (cols ssh_cor) (dim2 ssv_cor) ;;
  Ok (mkArr3 Ab Tb Fb
        (fun a t f =>
           at2 ssh_cor (bix (rows ssh_cor) t) (bix (cols ssh_cor) f)
           - at3 ssv_cor a (bix (dim1 ssv_cor) t) (bix (dim2 ssv_cor) f)
             / (1 + eps))).

(** The two branches on [compression]. *)
Definition ml_tf_loglike (delta : Arr3 R) (compression eps : R) : Arr3 R :=
  mkArr3 (dim0 delta) (dim1 delta) (dim2 delta)
    (fun a t f =>
       if Rle_dec compression 0
       then - np_log (Rmax (at3 delta a t f) eps)
       else - np_power (at3 delta a t f) compression).

(** [np.sum(mask[None, ...] * tf_loglike, (1, 2))]. *)
Definition ml_loglike2 (mask : Arr2 R) (tfl : Arr3 R) : result (Arr1 R) :=
  Ab <- bcast 1 (dim0 tfl) ;;
  Tb <- bcast (rows mask) (dim1 tfl) ;;
  Fb <- bcast (cols mask) (dim2 tfl) ;;
  Ok (mkArr1 Ab (fun a =>
        Rsum Tb (fun t => Rsum Fb (fun f =>
          at2 mask (bix (rows mask) t) (bix (cols mask) f)
          * at3 tfl a (bix (dim1 tfl) t) (bix (dim2 tfl) f))))).

(** [np.einsum("ntf,atf->na", mask, tf_loglike)]. *)
Definition ml_loglike3 (mask : Arr3 R) (tfl : Arr3 R) : result (Arr2 R) :=
  Tb <- bcast (dim1 mask) (dim1 tfl) ;;
  Fb <- bcast (dim2 mask) (dim2 tfl) ;;
  Ok (mkArr2 (dim0 mask) (dim0 tfl) (fun n a =>
        Rsum Tb (fun t => Rsum Fb (fun f =>
          at3 mask n (bix (dim1 mask) t) (bix (dim2 mask) f)
          * at3 tfl a (bix (dim1 tfl) t) (bix (dim2 tfl) f))))).

(** [np.argmax(loglike, axis=-1)] on a 2-D score. *)
Definition argmax_last (x : Arr2 R) : result doa :=
  match cols x with
  | O => Raise ValueError
  | S k => Ok (Doas (mkArr1 (rows x) (fun n => argmax_upto (at2 x n) k)))
  end.

Definition ml_ssl (stft sv : Arr3 C) (compression eps : R) (norm : bool)
           (mask : option mask_arg) : result doa :=
  let T := dim1 stft in
  let F := dim2 stft in
  let mask := match mask with
              | None => Mask2 (np_ones T F)
              | Some m => m
              end in
  let sv := sv_normalize sv in
  let stft := if norm then stft_normalize stft eps else stft in
  let ssh_cor := ml_ssh_cor stft in
  ssv_cor <- ml_ssv_cor sv stft ;;
  delta <- ml_delta ssh_cor ssv_cor eps ;;
  let tf_loglike := ml_tf_loglike delta compression eps in
  match mask with
  | Mask2 m =>
      loglike <- ml_loglike2 m tf_loglike ;;
      i <- np_argmax (len loglike) (at1 loglike) ;;
      Ok (Doa i)
  | Mask3 m =>
      loglike <- ml_loglike3 m tf_loglike ;;
      argmax_last loglike
  end.

(** [obs_pha[index_l] - obs_pha[index_r]], [P x T x F]. *)
Definition srp_obs_ipd (obs_pha : Arr3 R) (index_l index_r : list nat)
  : result (Arr3 R) :=
  _ <- check_indices (dim0 obs_pha) index_l ;;
  _ <- check_indices (dim0 obs_pha) index_r ;;
  P <- bcast (List.length index_l) (List.length index_r) ;;
  Ok (mkArr3 P (dim1 obs_pha) (dim2 obs_pha)
        (fun p t f =>
           at3 obs_pha (nth (bix (List.length index_l) p) index_l O) t f
           - at3 obs_pha (nth (bix (List.length index_r) p) index_r O) t f)).

(** [ora_pha[:, index_l] - ora_pha[:, index_r]], [A x P x F]. *)
Definition srp_ora_ipd (ora_pha : Arr3 R) (index_l index_r : list nat)
  : result (Arr3 R) :=
  _ <- check_indices (dim1 ora_pha) index_l ;;
  _ <- check_indices (dim1 ora_pha) index_r ;;
  P <- bcast (List.length index_l) (List.length index_r) ;;
  Ok (mkArr3 (dim0 ora_pha) P (dim2 ora_pha)
        (fun a p f =>
           at3 ora_pha a (nth (bix (List.length index_l) p) index_l O) f
           - at3 ora_pha a (nth (bix (List.length index_r) p) index_r O) f)).

Definition map3d {A B : Type} (g : A -> B) (x : Arr3 A) : Arr3 B :=
  mkArr3 (dim0 x) (dim1 x) (dim2 x) (fun i j k => g (at3 x i j k)).

(** [np.mean(np.cos(obs_ipd[None, ...] - ora_ipd[..., None, :]), 1)],
    [A x T x F]. *)
Definition srp_af (obs_ipd ora_ipd : Arr3 R) : result (Arr3 R) :=
  Ab <- bcast 1 (dim0 ora_ipd) ;;
  P <- bcast (dim0 obs_ipd) (dim1 ora_ipd) ;;
  Tb <- bcast (dim1 obs_ipd) 1 ;;
  Fb <- bcast (dim2 obs_ipd) (dim2 ora_ipd) ;;
  Ok (mkArr3 Ab Tb Fb
        (fun a t f =>
           Rsum P (fun p =>
             cos (at3 obs_ipd (bix (dim0 obs_ipd) p) t (bix (dim2 obs_ipd) f)
                  - at3 ora_ipd a (bix (dim1 ora_ipd) p)
                                  (bix (dim2 ora_ipd) f)))
           / INR P)).

(** [np.sum(af * mask[None, ...], (1, 2))]. *)
Definition srp_sum (af : Arr3 R) (mask : Arr2 R) : result (Arr1 R) :=
  Ab <- bcast (dim0 af) 1 ;;
  Tb <- bcast (dim1 af) (rows mask) ;;
  Fb <- bcast (dim2 af) (cols mask) ;;
  Ok (mkArr1 Ab (fun a =>
        Rsum Tb (fun t => Rsum Fb (fun f =>
          at3 af a (bix (dim1 af) t) (bix (dim2 af) f)
          * at2 mask (bix (rows mask) t) (bix (cols mask) f))))).

Definition srp_ssl (stft sv : Arr3 C) (srp_pair : option (list nat * list nat))
           (mask : option (Arr2 R)) : result nat :=
  match srp_pair with
  | None => Raise ValueError
  | Some (index_l, index_r) =>
      let T := dim1 stft in
      let F := dim2 stft in
      let mask := match mask with
                  | None => np_ones T F
                  | Some m => m
                  end in
      let obs_pha := map3d np_angle stft in
      let ora_pha := map3d np_angle sv in
      obs_ipd <- srp_obs_ipd obs_pha index_l index_r ;;
      ora_ipd <- srp_ora_ipd ora_pha index_l index_r ;;
      af <- srp_af obs_ipd ora_ipd ;;
      srp <- srp_sum af mask ;;
      np_argmax (len srp) (at1 srp)
  end.

(** [np.transpose(stft * mask, (2, 0, 1))], [F x M x T]. *)
Definition music_obs (stft : Arr3 C) (mask : Arr2 R) : result (Arr3 C) :=
  Tb <- bcast (dim1 stft) (rows mask) ;;
  Fb <- bcast (dim2 stft) (cols mask) ;;
  Ok (mkArr3 Fb (dim0 stft) Tb
        (fun f m t =>
           Cscal (at2 mask (bix (rows mask) t) (bix (cols mask) f))
                 (at3 stft m (bix (dim1 stft) t) (bix (dim2 stft) f)))).

(** [np.einsum("...at,...bt->...ab", obs, obs.conj()) / T], [F x M x M]. *)
Definition music_obs_covar (obs : Arr3 C) (T : nat) : Arr3 C :=
  mkArr3 (dim0 obs) (dim1 obs) (dim1 obs)
    (fun f a b =>
       Cscal (/ INR T)
             (Csum (dim2 obs) (fun t =>
                Cmul (at3 obs f a t) (Cconj (at3 obs f b t))))).

(** [v[..., :-1]] of [_, v = np.linalg.eigh(obs_covar)]: in every bin the
    columns [0 .. M-2] of the eigenvector matrix, [F x M x (M-1)]. *)
Definition music_noise_sub (obs_covar : Arr3 C) : Arr3 C :=
  mkArr3 (dim0 obs_covar) (dim1 obs_covar) (dim1 obs_covar - 1)
    (fun f a t => snd (eigh (dim1 obs_covar) (at3 obs_covar f)) a t).

(** [np.einsum("...at,...bt->...ab", noise_sub, noise_sub.conj())]. *)
Definition music_noise_covar (noise_sub : Arr3 C) : Arr3 C :=
  mkArr3 (dim0 noise_sub) (dim1 noise_sub) (dim1 noise_sub)
    (fun f a b =>
       Csum (dim2 noise_sub) (fun t =>
         Cmul (at3 noise_sub f a t) (Cconj (at3 noise_sub f b t)))).

(** [np.einsum("...a,...ab,...b->...", sv.conj(), noise_covar[:, None], sv)]
    with [sv] transposed to [F x A x M]; the result is [F x A]. *)
Definition music_denorm (sv : Arr3 C) (noise_covar : Arr3 C)
  : result (Arr2 C) :=
  Fb <- bcast (dim2 sv) (dim0 noise_covar) ;;
  Ab <- bcast (dim0 sv) 1 ;;
  Ma <- bcast (dim1 sv) (dim1 noise_covar) ;;
  Mb <- bcast (dim2 noise_covar) (dim1 sv) ;;
  Ok (mkArr2 Fb Ab
        (fun f a =>
           Csum Ma (fun i => Csum Mb (fun j =>
             Cmul (Cmul (Cconj (at3 sv a (bix (dim1 sv) i) (bix (dim2 sv) f)))
                        (at3 noise_covar (bix (dim0 noise_covar) f)
                                         (bix (dim1 noise_covar) i)
                                         (bix (dim2 noise_covar) j)))
                  (at3 sv a (bix (dim1 sv) j) (bix (dim2 sv) f)))))).

(** [np.sum(np.abs(denorm), axis=0)]. *)
Definition music_score (denorm : Arr2 C) : Arr1 R :=
  mkArr1 (cols denorm)
         (fun a => Rsum (rows denorm) (fun f => Cabs (at2 denorm f a))).

Definition music_ssl (stft sv : Arr3 C) (mask : option (Arr2 R))
  : result nat :=
  let T := dim1 stft in
  let F := dim2 stft in
  let mask := match mask with
              | None => np_ones T F
              | Some m => m
              end in
  obs <- music_obs stft mask ;;
  let obs_covar := music_obs_covar obs T in
  let noise_sub := music_noise_sub obs_covar in
  let noise_covar := music_noise_covar noise_sub in
  denorm <- music_denorm sv noise_covar ;;
  let score := music_score denorm in
  np_argmin (len score) (at1 score).

(** ** compute_ipd_and_linear_srp.py *)

(** The argument [S]: a 2-D array [T x F] or a 3-D array [N x T x F].  The
    reader of the script yields the first for a single-channel recording
    and the second, with [N >= 2], otherwise, see [reader_yields]. *)
Inductive spectrogram : Type :=
| Spec2 (s : Arr2 C)
| Spec3 (s : Arr3 C).

Definition ndim (S : spectrogram) : nat :=
  match S with
  | Spec2 _ => 2
  | Spec3 _ => 3
  end.

(** [srp_phat_linear] and [msc] of [libs.spatial]; the keyword arguments
    of the first are taken in the order [sample_frequency], [num_doa],
    [num_bins], [samp_doa]. *)
Variable srp_phat_linear :
  spectrogram -> list R -> Z -> Z -> Z -> bool -> result (Arr2 R).
Variable msc : spectrogram -> Z -> result (Arr2 R).

(** The command-line arguments read by [compute_spatial_feats].  The field
    [ipd_pair] holds the integers of ["--ipd.pair"] after the two splits,
    one list per pair. *)
Record Args : Type := mkArgs {
  type : string;
  frame_len : Z;
  round_power_of_two : bool;
  samp_frequency : Z;
  num_doa : Z;
  samp_tdoa : bool;
  linear_topo : list R;
  ipd_cos : bool;
  ipd_sin : bool;
  ipd_pair : list (list Z);
  msc_ctx : Z
}.

(** [S[i]], channel [i] of an [N x T x F] array. *)
Definition channel (s : Arr3 C) (i : nat) : Arr2 C :=
  mkArr2 (dim1 s) (dim2 s) (at3 s i).

(** Modelled from the spec: [ipd] of [libs.spatial], which is not among the
    sources.  The phase difference [angle(X_L) - angle(X_R)] of every
    time-frequency cell, encoded as its cosine when [cos] is set, with the
    sine appended along the frequency axis when [sin] is set too. *)
Definition ipd (si sj : Arr2 C) (cos_ sin_ : bool) : Arr2 R :=
  let ipd_mat := fun t f => np_angle (at2 si t f) - np_angle (at2 sj t f) in
  if cos_ then
    if sin_ then
      mkArr2 (rows si) (cols si + cols si)
             (fun t f => if (f <? cols si)%nat then cos (ipd_mat t f)
                         else sin (ipd_mat t (f - cols si)%nat))
    else mkArr2 (rows si) (cols si) (fun t f => cos (ipd_mat t f))
  else mkArr2 (rows si) (cols si) ipd_mat.

(** [np.hstack]: concatenation of 2-D arrays along the second axis. *)
Definition hstack2 (a b : Arr2 R) : result (Arr2 R) :=
  if (rows a =? rows b)%nat
  then Ok (mkArr2 (rows a) (cols a + cols b)
             (fun i j => if (j <? cols a)%nat then at2 a i j
                         else at2 b i (j - cols a)%nat))
  else Raise ValueError.

Fixpoint hstack_from (acc : Arr2 R) (l : list (Arr2 R)) : result (Arr2 R) :=
  match l with
  | [] => Ok acc
  | b :: l' => c <- hstack2 acc b ;; hstack_from c l'
  end.

Definition np_hstack (l : list (Arr2 R)) : result (Arr2 R) :=
  match l with
  | [] => Raise ValueError
  | a :: l' => hstack_from a l'
  end.

(** One round of the loop over the pairs: the body up to the value that is
    appended to [ipd_list]. *)
Definition ipd_of_pair (S : Arr3 C) (cos_ sin_ : bool) (indexes : list Z)
  : result (Arr2 R) :=
  match indexes with
  | [L; R] =>
      if (Z.of_nat (dim0 S) <? R)%Z then Raise RuntimeError
      else
        l <- np_index (dim0 S) L ;;
        r <- np_index (dim0 S) R ;;
        Ok (ipd (channel S l) (channel S r) cos_ sin_)
  | _ => Raise ValueError
  end.

(** The branch [args.type == "ipd"]. *)
Definition ipd_feats (args : Args) (S : spectrogram) : result (Arr2 R) :=
  match S with
  | Spec2 _ => Raise ValueError
  | Spec3 s =>
      ipd_list <- mapM (ipd_of_pair s (ipd_cos args) (ipd_sin args))
                       (ipd_pair args) ;;
      np_hstack ipd_list
  end.

Definition compute_spatial_feats (args : Args) (S : spectrogram)
  : result (Arr2 R) :=
  if String.eqb (type args) "srp" then
    let num_ffts := if round_power_of_two args
                    then nextpow2 (frame_len args)
                    else frame_len args in
    srp_phat_linear S (linear_topo args) (samp_frequency args) (num_doa args)
                    (num_ffts / 2 + 1)%Z (negb (samp_tdoa args))
  else if String.eqb (type args) "ipd" then ipd_feats args S
  else msc S (msc_ctx args).

(** ** apply_auxiva.py *)

Definition Ceq_dec (a b : C) : {a = b} + {a <> b}.
Proof.
  destruct a as [x y], b as [x' y'].
  destruct (Req_EM_T x x') as [Hx | Hx].
  - destruct (Req_EM_T y y') as [Hy | Hy].
    + left. subst. reflexivity.
    + right. intros H. apply Hy. exact (f_equal snd H).
  - right. intros H. apply Hx. exact (f_equal fst H).
Defined.

(** A square matrix of size [n] is a function of its two indices. *)
Definition matrix : Type := nat -> nat -> C.

(** Row 0 and column [j] removed. *)
Definition minor (A : matrix) (j : nat) : matrix :=
  fun r c => A (S r) (if (c <? j)%nat then c else S c).

(** The determinant, expanded along the first row. *)
Fixpoint Cdet (n : nat) (A : matrix) : C :=
  match n with
  | O => C1
  | S k =>
      Csum (S k) (fun j =>
        Cmul (Cmul (if Nat.even j then C1 else RtoC (-1)) (A O j))
             (Cdet k (minor A j)))
  end.

Definition replace_col (A : matrix) (j : nat) (b : nat -> C) : matrix :=
  fun r c => if (c =? j)%nat then b r else A r c.

(** [np.linalg.solve(A, b)] in exact arithmetic: a singular matrix raises
    [LinAlgError], otherwise the unique solution is returned (written with
    Cramer's rule).  LAPACK raises when its LU factorisation meets a pivot
    that is exactly zero; without rounding that is the case exactly for the
    singular matrices, with rounding it is the case for a matrix of zeros
    but not for every singular matrix.  What is said about the fate of a
    failed solve is therefore said for an arbitrary solver, see
    [auxiva_with]. *)
Definition np_linalg_solve (n : nat) (A : matrix) (b : nat -> C)
  : result (nat -> C) :=
  if Ceq_dec (Cdet n A) C0 then Raise LinAlgError
  else Ok (fun j => Cdiv (Cdet n (replace_col A j b)) (Cdet n A)).

(** [np.einsum("...tn,...nx->...tx", X, np.conj(W))], [F x T x N]. *)
Definition auxiva_einsum (N : nat) (X W : nat -> nat -> nat -> C)
  : nat -> nat -> nat -> C :=
  fun f t x => Csum N (fun n => Cmul (X f t n) (Cconj (W f n x))).

(** [R = np.sqrt(np.sum(np.abs(Y) ** 2, axis=0))], [T x N]. *)
Definition auxiva_R (F : nat) (Y : nat -> nat -> nat -> C) : nat -> nat -> R :=
  fun t n => sqrt (Rsum F (fun f => Rsqr (Cabs (Y f t n)))).

(** [Gr = 1 / (R.T + EPSILON)], [N x T]. *)
Definition auxiva_Gr (R_ : nat -> nat -> R) : nat -> nat -> R :=
  fun n t => 1 / (R_ t n + EPSILON).

(** [V = np.dot(np.expand_dims(Gr[n], 0) * X[f].T, np.conj(X[f])) / T]. *)
Definition auxiva_V (T : nat) (Gr : nat -> nat -> R)
           (X : nat -> nat -> nat -> C) (f n : nat) : matrix :=
  fun i j =>
    Cscal (/ INR T)
          (Csum T (fun t => Cmul (Cscal (Gr n t) (X f t i))
                                 (Cconj (X f t j)))).

(** [np.conj(W[f].T) @ V]. *)
Definition auxiva_WV (N : nat) (Wf V : matrix) : matrix :=
  fun i j => Csum N (fun k => Cmul (Cconj (Wf k i)) (V k j)).

(** [I[n]], row [n] of [np.eye(N)]. *)
Definition eye_row (n : nat) : nat -> C :=
  fun i => if (i =? n)%nat then C1 else C0.

(** [np.inner(np.conj(w), V @ w)]. *)
Definition auxiva_wVw (N : nat) (V : matrix) (w : nat -> C) : C :=
  Csum N (fun i => Cmul (Cconj (w i)) (Csum N (fun j => Cmul (V i j) (w j)))).

(** The value assigned to [W[f, :, n]]. *)
Definition auxiva_column (N : nat) (V : matrix) (w : nat -> C) : nat -> C :=
  fun i => Cdiv (w i) (auxiva_wVw N V w).

(** [W[f, :, n] = col]. *)
Definition set_column (W : nat -> nat -> nat -> C) (f n : nat) (col : nat -> C)
  : nat -> nat -> nat -> C :=
  fun f' i n' => if ((f' =? f) && (n' =? n))%nat%bool then col i else W f' i n'.

(** The body of the loop over [n]. *)
Definition auxiva_update (N T : nat) (Gr : nat -> nat -> R)
           (X : nat -> nat -> nat -> C) (f n : nat)
           (W : nat -> nat -> nat -> C) : result (nat -> nat -> nat -> C) :=
  let V := auxiva_V T Gr X f n in
  w <- np_linalg_solve N (auxiva_WV N (W f) V) (eye_row n) ;;
  Ok (set_column W f n (auxiva_column N V w)).

(** The two loops over [f] and [n] of one epoch. *)
Definition auxiva_sweep (N T F : nat) (Gr : nat -> nat -> R)
           (X : nat -> nat -> nat -> C) (W : nat -> nat -> nat -> C)
  : result (nat -> nat -> nat -> C) :=
  for_range F (fun f W => for_range N (auxiva_update N T Gr X f) W) W.

(** The body of the loop over the epochs; the state is [(W, Y)]. *)
Definition auxiva_epoch (N T F : nat) (X : nat -> nat -> nat -> C)
           (st : (nat -> nat -> nat -> C) * (nat -> nat -> nat -> C))
  : result ((nat -> nat -> nat -> C) * (nat -> nat -> nat -> C)) :=
  let Y := snd st in
  let R_ := auxiva_R F Y in
  let Gr := auxiva_Gr R_ in
  W <- auxiva_sweep N T F Gr X (fst st) ;;
  Ok (W, auxiva_einsum N X W).

(** [np.eye(N)] in every bin. *)
Definition auxiva_W0 : nat -> nat -> nat -> C :=
  fun _ i j => if (i =? j)%nat then C1 else C0.

(** [W = np.array([np.eye(N) for f in range(F)])] is an [F x N x N] array
    when [F > 0]; from an empty list [np.array] makes a 1-D array of length
    0, on which the subscripts ["...nx"] of the first [einsum] raise. *)
Definition auxiva (X : Arr3 C) (epochs : Z) : result (Arr3 C) :=
  let N := dim0 X in
  let T := dim1 X in
  let F := dim2 X in
  let Xt := fun f t n => at3 X n t f in
  let W := auxiva_W0 in
  if (F =? 0)%nat then Raise ValueError
  else
    let Y := auxiva_einsum N Xt W in
    st <- for_range (Z.to_nat epochs) (fun _ => auxiva_epoch N T F Xt) (W, Y) ;;
    let Y := snd st in
    Ok (mkArr3 N T F (fun n t f => Y f t n)).

(** The weights [Gr] and the demixing matrices [W] with which the update of
    column [n] of bin [f] starts in epoch [e] (all counted from 0), when
    every update before it has succeeded. *)
Definition auxiva_reach (X : Arr3 C) (e f n : nat)
  : result ((nat -> nat -> R) * (nat -> nat -> nat -> C)) :=
  let N := dim0 X in
  let T := dim1 X in
  let F := dim2 X in
  let Xt := fun f t n => at3 X n t f in
  st <- for_range e (fun _ => auxiva_epoch N T F Xt)
                  (auxiva_W0, auxiva_einsum N Xt auxiva_W0) ;;
  let Gr := auxiva_Gr (auxiva_R F (snd st)) in
  W1 <- for_range f (fun f W => for_range N (auxiva_update N T Gr Xt f) W)
                  (fst st) ;;
  W2 <- for_range n (auxiva_update N T Gr Xt f) W1 ;;
  Ok (Gr, W2).

(** The same function with the linear solver as an argument; [auxiva] is
    [auxiva_with np_linalg_solve], see [auxiva_with_exact].  A solver takes the size, the matrix and
    the right-hand side, and returns the solution or raises. *)
Definition solver : Type := nat -> matrix -> (nat -> C) -> result (nat -> C).

Definition auxiva_update_with (solve : solver) (N T : nat)
           (Gr : nat -> nat -> R) (X : nat -> nat -> nat -> C) (f n : nat)
           (W : nat -> nat -> nat -> C) : result (nat -> nat -> nat -> C) :=
  let V := auxiva_V T Gr X f n in
  w <- solve N (auxiva_WV N (W f) V) (eye_row n) ;;
  Ok (set_column W f n (auxiva_column N V w)).

Definition auxiva_epoch_with (solve : solver) (N T F : nat)
           (X : nat -> nat -> nat -> C)
           (st : (nat -> nat -> nat -> C) * (nat -> nat -> nat -> C))
  : result ((nat -> nat -> nat -> C) * (nat -> nat -> nat -> C)) :=
  let Gr := auxiva_Gr (auxiva_R F (snd st)) in
  W <- for_range F (fun f W =>
         for_range N (auxiva_update_with solve N T Gr X f) W) (fst st) ;;
  Ok (W, auxiva_einsum N X W).

Definition auxiva_with (solve : solver) (X : Arr3 C) (epochs : Z)
  : result (Arr3 C) :=
  let N := dim0 X in
  let T := dim1 X in
  let F := dim2 X in
  let Xt := fun f t n => at3 X n t f in
  if (F =? 0)%nat then Raise ValueError
  else
    st <- for_range (Z.to_nat epochs) (fun _ => auxiva_epoch_with solve N T F Xt)
                    (auxiva_W0, auxiva_einsum N Xt auxiva_W0) ;;
    Ok (mkArr3 N T F (fun n t f => snd st f t n)).

(** [auxiva_reach] for [auxiva_with]. *)
Definition auxiva_reach_with (solve : solver) (X : Arr3 C) (e f n : nat)
  : result ((nat -> nat -> R) * (nat -> nat -> nat -> C)) :=
  let N := dim0 X in
  let T := dim1 X in
  let F := dim2 X in
  let Xt := fun f t n => at3 X n t f in
  st <- for_range e (fun _ => auxiva_epoch_with solve N T F Xt)
                  (auxiva_W0, auxiva_einsum N Xt auxiva_W0) ;;
  let Gr := auxiva_Gr (auxiva_R F (snd st)) in
  W1 <- for_range f (fun f W =>
          for_range N (auxiva_update_with solve N T Gr Xt f) W) (fst st) ;;
  W2 <- for_range n (auxiva_update_with solve N T Gr Xt f) W1 ;;
  Ok (Gr, W2).

(** ** oracle_separate.py *)

Inductive masks : Type :=
| BoolMasks (l : list (Arr2 bool))
| RealMasks (l : list (Arr2 R)).

(** [np.stack(l)] of 2-D arrays: the list must not be empty and all shapes
    must agree. *)
Definition np_stack (l : list (Arr2 R)) : result (Arr3 R) :=
  match l with
  | [] => Raise ValueError
  | a :: l' =>
      if forallb (fun b => (rows b =? rows a)%nat && (cols b =? cols a)%nat) l'
      then Ok (mkArr3 (List.length l) (rows a) (cols a)
                      (fun s i j => at2 (nth s l a) i j))
      else Raise ValueError
  end.

(** [np.argmax(x, 0)]. *)
Definition argmax_first (x : Arr3 R) : result (Arr2 nat) :=
  match dim0 x with
  | O => Raise ValueError
  | S k => Ok (mkArr2 (dim1 x) (dim2 x)
                 (fun i j => argmax_upto (fun s => at3 x s i j) k))
  end.

(** [sum(l)] of Python on arrays: [0 + l[0] + l[1] + ...].  The scalar [0]
    is held as a [1 x 1] array, which broadcasts the same way. *)
Fixpoint py_sum (acc : Arr2 R) (l : list (Arr2 R)) : result (Arr2 R) :=
  match l with
  | [] => Ok acc
  | a :: l' => acc' <- bop2 Rplus acc a ;; py_sum acc' l'
  end.

Definition compute_mask (mixture : Arr2 C) (targets_list : list (Arr2 C))
           (mask_type : string) : result masks :=
  if String.eqb mask_type "ibm" then
    stacked <- np_stack (map (map2d cmat_abs) targets_list) ;;
    max_index <- argmax_first stacked ;;
    Ok (BoolMasks
          (map (fun s => map2d (fun m => (m =? s)%nat) max_index)
               (seq O (List.length targets_list))))
  else
    denominator <-
      (if String.eqb mask_type "irm" then
         total <- py_sum (mkArr2 1 1 (fun _ _ => 0))
                         (map (map2d cmat_abs) targets_list) ;;
         Ok (map2d (fun x => x + EPSILON) total)
       else
         Ok (map2d (fun z => cmat_abs z + EPSILON) mixture)) ;;
    if negb (String.eqb mask_type "psm") then
      l <- mapM (fun mat => bop2 Rdiv (map2d cmat_abs mat) denominator)
                targets_list ;;
      Ok (RealMasks l)
    else
      let mixture_phase := map2d np_angle mixture in
      l <- mapM (fun mat =>
                   d <- bop2 Rminus mixture_phase (map2d np_angle mat) ;;
                   p <- bop2 Rmult (map2d cmat_abs mat) (map2d cos d) ;;
                   bop2 Rdiv p denominator)
                targets_list ;;
      Ok (RealMasks l).

(** ** rir_generate_2d.py *)

(** [random.uniform(a, b)] as the standard library computes it from the
    value [u] of [random.random()], a number of [0, 1). *)
Definition uniform (a b u : R) : R := a + (b - a) * u.

(** [((mx - x)**2 + (my - y)**2)**0.5]. *)
Definition dist2d (mx my : R) (p : R * R) : R :=
  sqrt ((mx - fst p) ^ 2 + (my - snd p) ^ 2).

(** [max(l)] of Python on a list of numbers that is not empty. *)
Definition py_max (l : list R) : R :=
  match l with
  | [] => 0
  | x :: l' => fold_left Rmax l' x
  end.

(** [RirSimulator._max_src_dist]: the largest distance from the centre of
    the array to a corner of the floor. *)
Definition max_src_dist (rpos_2d room_size_2d : R * R) : R :=
  let (mx, my) := rpos_2d in
  let (rx, ry) := room_size_2d in
  let bound := [(0, 0); (0, ry); (rx, 0); (rx, ry)] in
  let dist := map (dist2d mx my) bound in
  py_max dist.

(** [round(f, 3)]. *)
Variable round3 : R -> R.

(** The arguments read by [_place_spk]. *)
Record SpkArgs : Type := mkSpkArgs {
  num_rirs : nat;
  retry : nat;
  src_dist : R * R;
  speaker_height : R * R
}.

(** One entry of [stats]: the keys ["pos"], ["doa"] and ["dst"]. *)
Record SpkStat : Type := mkSpkStat {
  stat_pos : R * R * R;
  stat_doa : R;
  stat_dst : R
}.

(** The [while True] loop of [_place_spk].  [fuel] is the number of rounds
    left before [ntry > max_retry] ends the loop; [rnd] is the sequence of
    the values of [random.random()] and [k] the number of values already
    drawn.  The result is [(done, stats)]. *)
Fixpoint place_spk_loop (rnd : nat -> R) (args : SpkArgs)
         (mx my rx ry rz min_src_dist max_src_dist' : R)
         (fuel k done : nat) (stats : list SpkStat) : nat * list SpkStat :=
  match fuel with
  | O => (done, stats)
  | S fuel' =>
      let sz := uniform (fst (speaker_height args)) (snd (speaker_height args))
                        (rnd k) in
      if Rle_dec rz sz then
        place_spk_loop rnd args mx my rx ry rz min_src_dist max_src_dist'
                       fuel' (k + 1) done stats
      else
        let dst := uniform min_src_dist max_src_dist' (rnd (k + 1)%nat) in
        let doa := uniform 0 (PI * 2) (rnd (k + 2)%nat) in
        let sx := mx + cos doa * dst in
        let sy := my + sin doa * dst in
        if Rle_dec sx 0 then
          place_spk_loop rnd args mx my rx ry rz min_src_dist max_src_dist'
                         fuel' (k + 3) done stats
        else if Rle_dec rx sx then
          place_spk_loop rnd args mx my rx ry rz min_src_dist max_src_dist'
                         fuel' (k + 3) done stats
        else if Rle_dec sy 0 then
          place_spk_loop rnd args mx my rx ry rz min_src_dist max_src_dist'
                         fuel' (k + 3) done stats
        else if Rle_dec ry sy then
          place_spk_loop rnd args mx my rx ry rz min_src_dist max_src_dist'
                         fuel' (k + 3) done stats
        else
          let done' := S done in
          let stat := mkSpkStat (round3 sx, round3 sy, round3 sz)
                                (round3 (doa * 180 / PI)) (round3 dst) in
          let stats' := stats ++ [stat] in
          if (done' =? num_rirs args)%nat then (done', stats')
          else
            place_spk_loop rnd args mx my rx ry rz min_src_dist max_src_dist'
                           fuel' (k + 3) done' stats'
  end.

(** [RirSimulator._place_spk]: [(done == num_rirs, stats)]. *)
Definition place_spk (rnd : nat -> R) (args : SpkArgs) (center : R * R)
           (room_size : R * R * R) : bool * list SpkStat :=
  let (mx, my) := center in
  let '(rx, ry, rz) := room_size in
  let max_retry := (retry args * num_rirs args)%nat in
  let (min_src_dist, max_src_dist0) := src_dist args in
  let max_src_dist' := Rmin max_src_dist0 (max_src_dist (mx, my) (rx, ry)) in
  let (done, stats) :=
    place_spk_loop rnd args mx my rx ry rz min_src_dist max_src_dist'
                   max_retry 0 0 [] in
  ((done =? num_rirs args)%nat, stats).

(** What is recorded of a speaker that was drawn at [(sx, sy, sz)], at the
    distance [dst] from the centre [(mx, my)] of the array. *)
Definition placed (mx my rx ry rz : R) (st : SpkStat) (sx sy sz dst : R)
  : Prop :=
  stat_pos st = (round3 sx, round3 sy, round3 sz) /\
  stat_dst st = round3 dst /\
  0 < sx < rx /\ 0 < sy < ry /\ sz < rz /\
  (sx - mx) ^ 2 + (sy - my) ^ 2 = dst ^ 2.

(** The channel selected by a Python index inside [-n, n). *)
Definition py_wrap (n : nat) (i : Z) : nat :=
  Z.to_nat (if (i <? 0)%Z then Z.of_nat n + i else i).

(** ** The properties, in the words of the specification *)

(** [i] is the first index of [range(n)] at which [score] is maximal,
    respectively minimal. *)
Definition first_argmax (n : nat) (score : nat -> R) (i : nat) : Prop :=
  (i < n)%nat /\
  (forall a, (a < n)%nat -> score a <= score i) /\
  (forall a, (a < i)%nat -> score a < score i).

Definition first_argmin (n : nat) (score : nat -> R) (i : nat) : Prop :=
  (i < n)%nat /\
  (forall a, (a < n)%nat -> score i <= score a) /\
  (forall a, (a < i)%nat -> score i < score a).

(** The likelihood deficit of direction [a] in the cell [(t, f)]:
    |observed self-coherence| - |steered correlation|^2 / (1 + eps). *)
Definition spec_ml_delta (X svn : Arr3 C) (eps : R) (a t f : nat) : R :=
  Cabs (Csum (dim0 X) (fun m => Cmul (at3 X m t f) (Cconj (at3 X m t f))))
  - Rsqr (Cabs (Csum (dim0 X) (fun m =>
            Cmul (at3 svn a m f) (Cconj (at3 X m t f)))))
    / (1 + eps).

(** The log-likelihood of a cell: [-log(max(delta, eps))] when the
    compression exponent is not positive, [-delta^compression] otherwise. *)
Definition spec_ml_cell (X svn : Arr3 C) (compression eps : R)
           (a t f : nat) : R :=
  if Rle_dec compression 0
  then - np_log (Rmax (spec_ml_delta X svn eps a t f) eps)
  else - np_power (spec_ml_delta X svn eps a t f) compression.

(** The mask-weighted sum of the cells over time and frequency. *)
Definition spec_ml_score (X svn : Arr3 C) (compression eps : R)
           (mask : nat -> nat -> R) (a : nat) : R :=
  Rsum (dim1 X) (fun t => Rsum (dim2 X) (fun f =>
    mask t f * spec_ml_cell X svn compression eps a t f)).

(** The channel-normalised steering vectors: the steering vector of every
    direction [a] and frequency bin [f] divided by its Euclidean norm over
    the channels. *)
Definition spec_unit_bank (sv : Arr3 C) : Arr3 C :=
  mkArr3 (dim0 sv) (dim1 sv) (dim2 sv)
    (fun a m f =>
       Cscal (/ sqrt (Rsum (dim1 sv) (fun m' => Cabs2 (at3 sv a m' f))))
             (at3 sv a m f)).

(** The observed spectrum that is scored: the input, or, with the option
    [norm], the input with every coefficient divided by the larger of its
    magnitude and [eps]. *)
Definition spec_observed (stft : Arr3 C) (eps : R) (norm : bool) : Arr3 C :=
  if norm
  then mkArr3 (dim0 stft) (dim1 stft) (dim2 stft)
         (fun m t f => Cscal (/ Rmax (cmat_abs (at3 stft m t f)) eps)
                             (at3 stft m t f))
  else stft.

(** The spectrum that [ml_ssl] scores: the input, or its normalisation
    when [norm] is set. *)
Definition ml_observed (stft : Arr3 C) (eps : R) (norm : bool) : Arr3 C :=
  if norm then stft_normalize stft eps else stft.

(** A bank [sv'] whose steering vectors are scalar multiples of those of
    [sv]: one complex factor [c a f] per direction and frequency bin. *)
Definition scaled_bank (c : nat -> nat -> C) (sv sv' : Arr3 C) : Prop :=
  dim0 sv' = dim0 sv /\ dim1 sv' = dim1 sv /\ dim2 sv' = dim2 sv /\
  forall a m f, (a < dim0 sv)%nat -> (m < dim1 sv)%nat -> (f < dim2 sv)%nat ->
                at3 sv' a m f = Cmul (c a f) (at3 sv a m f).





(** The mask, when given, has the spectrogram's time and frequency axes. *)
Definition mask_fits (mask : option mask_arg) (T F : nat) : Prop :=
  match mask with
  | None => True
  | Some (Mask2 m) => rows m = T /\ cols m = F
  | Some (Mask3 m) => dim1 m = T /\ dim2 m = F
  end.

(** The weight of the cell [(t, f)]: the entry of the mask, or 1 without a
    mask. *)
Definition mask_weight (mask : option (Arr2 R)) : nat -> nat -> R :=
  match mask with
  | None => fun _ _ => 1
  | Some m => at2 m
  end.

(** The channel covariance of the frequency bin [f] of the masked spectrum:
    the mean over the frames [t] of [y_a(t) conj(y_b(t))], where
    [y_m(t) = w(t, f) X_m(t, f)]. *)
Definition spec_music_covar (stft : Arr3 C) (w : nat -> nat -> R) (f : nat)
  : nat -> nat -> C :=
  fun a b =>
    Cscal (/ INR (dim1 stft))
          (Csum (dim1 stft) (fun t =>
             Cmul (Cscal (w t f) (at3 stft a t f))
                  (Cconj (Cscal (w t f) (at3 stft b t f))))).

(** The eigenvalues of the covariance of bin [f], and its eigenvectors:
    [spec_music_eigenvector stft w f m k] is the coordinate [m] of the
    eigenvector that belongs to the eigenvalue number [k]. *)
Definition spec_music_eigenvalue (stft : Arr3 C) (w : nat -> nat -> R)
           (f k : nat) : R :=
  fst (eigh (dim0 stft) (spec_music_covar stft w f)) k.

Definition spec_music_eigenvector (stft : Arr3 C) (w : nat -> nat -> R)
           (f m k : nat) : C :=
  snd (eigh (dim0 stft) (spec_music_covar stft w f)) m k.

(** [top f] numbers an eigenvalue of bin [f] that no other eigenvalue of
    the bin exceeds. *)
Definition dominant (stft : Arr3 C) (w : nat -> nat -> R) (top : nat -> nat)
  : Prop :=
  forall f, (f < dim2 stft)%nat ->
    (top f < dim0 stft)%nat /\
    forall k, (k < dim0 stft)%nat ->
      spec_music_eigenvalue stft w f k
      <= spec_music_eigenvalue stft w f (top f).

(** The projection energy of direction [a] onto the noise subspaces: the
    squared magnitude of the inner product of the steering vector of [a]
    with an eigenvector, summed over all eigenvectors of the bin except the
    one numbered [top f], and over the frequency bins. *)
Definition spec_music_energy (stft : Arr3 C) (w : nat -> nat -> R)
           (top : nat -> nat) (sv : Arr3 C) (a : nat) : R :=
  Rsum (dim2 stft) (fun f => Rsum (dim0 stft) (fun k =>
    if (k =? top f)%nat then 0
    else Cabs2 (Csum (dim0 stft) (fun m =>
           Cmul (Cconj (spec_music_eigenvector stft w f m k))
                (at3 sv a m f))))).


(** The number of channels of a spectrogram. *)
Definition channels (S : spectrogram) : nat :=
  match S with
  | Spec2 _ => 1
  | Spec3 s => dim0 s
  end.

(** The steered-response score of direction [a]: for every cell the mean
    over the channel pairs of the cosine of the difference between the
    observed and the oracle phase difference, weighted by the mask and summed
    over time and frequency. *)
Definition spec_srp_score (stft sv : Arr3 C) (index_l index_r : list nat)
           (mask : nat -> nat -> R) (a : nat) : R :=
  Rsum (dim1 stft) (fun t => Rsum (dim2 stft) (fun f =>
    Rsum (List.length index_l) (fun p =>
      cos ((np_angle (at3 stft (nth p index_l O) t f)
            - np_angle (at3 stft (nth p index_r O) t f))
           - (np_angle (at3 sv a (nth p index_l O) f)
              - np_angle (at3 sv a (nth p index_r O) f))))
    / INR (List.length index_l)
    * mask t f)).

(** [x'] is [x] with every coefficient multiplied by a positive real. *)
Definition rescaled (k : nat -> nat -> nat -> R) (x x' : Arr3 C) : Prop :=
  dim0 x' = dim0 x /\ dim1 x' = dim1 x /\ dim2 x' = dim2 x /\
  forall i j l, (i < dim0 x)%nat -> (j < dim1 x)%nat -> (l < dim2 x)%nat ->
                0 < k i j l /\ at3 x' i j l = Cscal (k i j l) (at3 x i j l).

(** The mask that keeps the single cell [(t0, f0)]. *)
Definition one_cell_mask (T F t0 f0 : nat) : Arr2 R :=
  mkArr2 T F (fun t f => if ((t =? t0) && (f =? f0))%nat%bool then 1 else 0).

(** The mask [m] multiplied by the number [k]. *)
Definition scale_mask (k : R) (m : Arr2 R) : Arr2 R :=
  mkArr2 (rows m) (cols m) (fun t f => k * at2 m t f).

(** The sum of a list of numbers. *)
Definition Rlist_sum (l : list R) : R := fold_right Rplus 0 l.

(** ** Concrete inputs *)

Definition const3 (N T F : nat) (z : C) : Arr3 C := mkArr3 N T F (fun _ _ _ => z).
Definition const2 (T F : nat) (z : C) : Arr2 C := mkArr2 T F (fun _ _ => z).

(** The value of [np.finfo(np.float32).eps], a possible [EPSILON]. *)
Definition eps32 : R := / 8388608.

Definition ipd_args (pairs : list (list Z)) : Args :=
  mkArgs "ipd" 512 true 16000 181 false [0; 0.2; 0.4; 0.8] false false pairs 1.

(** The eigen-decomposition of a 1 x 1 Hermitian matrix: its entry is the
    eigenvalue and [1] is the eigenvector. *)
Definition eigh1 (M : nat) (A : nat -> nat -> C)
  : (nat -> R) * (nat -> nat -> C) :=
  (fun _ => fst (A O O), fun _ _ => C1).

(** A two-channel spectrogram of 3 frames and 4 bins in which only the
    first channel carries signal, and a bank of two directions for it: the
    steering vectors of direction 0 are [(0, 1)], those of direction 1 are
    [(1, 0)]. *)
Definition first_channel_only : Arr3 C :=
  mkArr3 2 3 4 (fun m _ _ => if (m =? 0)%nat then C1 else C0).

Definition unit_bank2 : Arr3 C :=
  mkArr3 2 2 4 (fun a m _ => if (a + m =? 1)%nat then C1 else C0).

(** The eigen-decomposition of the matrix [diag(1, 0)], the covariance of
    every bin of [first_channel_only]: the eigenvalues 0 and 1 in ascending
    order, with the eigenvectors [(0, 1)] and [(1, 0)] as columns. *)
Definition eigh_diag10 (M : nat) (A : nat -> nat -> C)
  : (nat -> R) * (nat -> nat -> C) :=
  (fun k => INR k, fun i j => if (i + j =? 1)%nat then C1 else C0).

(** ** Basic facts *)

Lemma bcast_same (n : nat) : bcast n n = Ok n.
Proof. unfold bcast. rewrite Nat.eqb_refl. reflexivity. Qed.

Lemma bcast_one_l (n : nat) : bcast 1 n = Ok n.
Proof.
  unfold bcast. destruct (Nat.eqb_spec 1 n) as [<- | _]; reflexivity.
Qed.

Lemma bcast_one_r (n : nat) : bcast n 1 = Ok n.
Proof.
  unfold bcast. destruct (Nat.eqb_spec n 1) as [-> | _]; reflexivity.
Qed.

Lemma bcast_mismatch (a b : nat) :
  a <> b -> a <> 1%nat -> b <> 1%nat -> bcast a b = Raise ValueError.
Proof.
  intros Hab Ha Hb. unfold bcast.
  destruct (Nat.eqb_spec a b); [contradiction |].
  destruct (Nat.eqb_spec a 1); [contradiction |].
  destruct (Nat.eqb_spec b 1); [contradiction | reflexivity].
Qed.

Lemma bcast_cases (a b : nat) :
  bcast a b = Raise ValueError \/ exists n, bcast a b = Ok n.
Proof.
  unfold bcast.
  destruct (a =? b)%nat; [right; eauto |].
  destruct (a =? 1)%nat; [right; eauto |].
  destruct (b =? 1)%nat; [right; eauto | left; reflexivity].
Qed.

Lemma bix_in_range (d i : nat) : (i < d)%nat -> bix d i = i.
Proof.
  intros H. unfold bix. destruct (Nat.eqb_spec d 1); [lia | reflexivity].
Qed.

Lemma Rsum_ext (n : nat) (f g : nat -> R) :
  (forall i, (i < n)%nat -> f i = g i) -> Rsum n f = Rsum n g.
Proof.
  induction n as [| n IH]; intros H; simpl; [reflexivity |].
  rewrite IH by (intros; apply H; lia). rewrite H by lia. reflexivity.
Qed.

Lemma Csum_ext (n : nat) (f g : nat -> C) :
  (forall i, (i < n)%nat -> f i = g i) -> Csum n f = Csum n g.
Proof.
  induction n as [| n IH]; intros H; simpl; [reflexivity |].
  rewrite IH by (intros; apply H; lia). rewrite H by lia. reflexivity.
Qed.

(** An exception raised by one round of a loop ends the loop with it. *)
Lemma for_range_raise {S : Type} (body : nat -> S -> result S)
      (s s' : S) (k : nat) (e : exn) :
  for_range k body s = Ok s' -> body k s' = Raise e ->
  forall n, (k < n)%nat -> for_range n body s = Raise e.
Proof.
  intros Hk Hb n. induction n as [| n IH]; intros Hlt; [lia |].
  simpl. destruct (Nat.eq_dec k n) as [<- | Hne].
  - rewrite Hk. simpl. exact Hb.
  - rewrite IH by lia. reflexivity.
Qed.

Lemma np_linalg_solve_singular (n : nat) (A : matrix) (b : nat -> C) :
  Cdet n A = C0 -> np_linalg_solve n A b = Raise LinAlgError.
Proof.
  intros H. unfold np_linalg_solve.
  destruct (Ceq_dec (Cdet n A) C0); [reflexivity | contradiction].
Qed.

(** ** AuxIVA *)

(** [auxiva] is [auxiva_with] for the exact solver. *)
Lemma auxiva_with_exact (X : Arr3 C) (epochs : Z) :
  auxiva X epochs = auxiva_with np_linalg_solve X epochs.
Proof. reflexivity. Qed.

(** X22. [auxiva] has no handler around its linear solve.  Whatever solver
    is used and whatever exception it raises at the update of column [n] of
    bin [f] in epoch [e], reached after all updates before it have
    succeeded, the call ends with that exception: no spectrogram is
    returned and no column is put in the place of the failed update. *)
Theorem auxiva_solve_failure_escapes (solve : solver) (X : Arr3 C)
        (epochs : Z) (e f n : nat)
        (Gr : nat -> nat -> R) (W : nat -> nat -> nat -> C) (err : exn) :
  (e < Z.to_nat epochs)%nat -> (f < dim2 X)%nat -> (n < dim0 X)%nat ->
  auxiva_reach_with solve X e f n = Ok (Gr, W) ->
  solve (dim0 X)
        (auxiva_WV (dim0 X) (W f)
           (auxiva_V (dim1 X) Gr (fun f t n => at3 X n t f) f n))
        (eye_row n) = Raise err ->
  auxiva_with solve X epochs = Raise err.
Proof.
  intros He Hf Hn Hreach Hfail.
  unfold auxiva_with.
  destruct (Nat.eqb_spec (dim2 X) 0) as [H0 | _]; [lia |].
  unfold auxiva_reach_with in Hreach.
  set (Xt := fun f t n => at3 X n t f) in *.
  set (N := dim0 X) in *. set (T := dim1 X) in *. set (F := dim2 X) in *.
  destruct (for_range e (fun _ => auxiva_epoch_with solve N T F Xt)
                      (auxiva_W0, auxiva_einsum N Xt auxiva_W0))
    as [st |] eqn:Hst; simpl in Hreach; [| discriminate].
  set (Gr' := auxiva_Gr (auxiva_R F (snd st))) in *.
  destruct (for_range f
              (fun f W => for_range N (auxiva_update_with solve N T Gr' Xt f) W)
              (fst st))
    as [W1 |] eqn:HW1; simpl in Hreach; [| discriminate].
  destruct (for_range n (auxiva_update_with solve N T Gr' Xt f) W1)
    as [W2 |] eqn:HW2; simpl in Hreach; [| discriminate].
  injection Hreach as HGr HW. subst Gr W2.
  assert (Hupd : auxiva_update_with solve N T Gr' Xt f n W = Raise err).
  { unfold auxiva_update_with. cbv zeta. rewrite Hfail. reflexivity. }
  assert (Hbin : for_range N (auxiva_update_with solve N T Gr' Xt f) W1
                 = Raise err).
  { exact (for_range_raise _ _ _ _ _ HW2 Hupd N Hn). }
  assert (Hsweep :
            for_range F (fun f W =>
              for_range N (auxiva_update_with solve N T Gr' Xt f) W) (fst st)
            = Raise err).
  { exact (for_range_raise _ _ _ _ _ HW1 Hbin F Hf). }
  assert (Hep : auxiva_epoch_with solve N T F Xt st = Raise err).
  { unfold auxiva_epoch_with. cbv zeta. fold Gr'. rewrite Hsweep.
    reflexivity. }
  rewrite (for_range_raise _ _ _ _ _ Hst Hep (Z.to_nat epochs) He).
  reflexivity.
Qed.

(** Complex arithmetic. *)

Lemma C_eq (a b : C) : fst a = fst b -> snd a = snd b -> a = b.
Proof. destruct a, b. simpl. intros -> ->. reflexivity. Qed.

Ltac csolve :=
  intros;
  repeat match goal with z : C |- _ => destruct z end;
  unfold Cadd, Csub, Cmul, Copp, Cconj, Cscal, RtoC, C0, C1; simpl;
  apply C_eq; simpl; try ring.

Lemma C_ring : ring_theory C0 C1 Cadd Cmul Csub Copp (@eq C).
Proof.
  constructor; csolve.
Qed.

Add Ring CRing : C_ring.

Lemma Cconj_mul (a b : C) : Cconj (Cmul a b) = Cmul (Cconj a) (Cconj b).
Proof. csolve. Qed.

Lemma Cconj_add (a b : C) : Cconj (Cadd a b) = Cadd (Cconj a) (Cconj b).
Proof. csolve. Qed.

Lemma Cconj_invol (a : C) : Cconj (Cconj a) = a.
Proof. csolve. Qed.

Lemma Cmul_conj (a : C) : Cmul (Cconj a) a = RtoC (Cabs2 a).
Proof. unfold Cabs2. csolve. Qed.

Lemma Cabs2_nonneg (a : C) : 0 <= Cabs2 a.
Proof. unfold Cabs2. nra. Qed.

Lemma Cabs2_zero (a : C) : Cabs2 a = 0 -> a = C0.
Proof.
  destruct a as [x y]. unfold Cabs2, C0. simpl. intros H.
  apply C_eq; simpl; nra.
Qed.

Lemma Cabs2_pos (a : C) : a <> C0 -> 0 < Cabs2 a.
Proof.
  intros Ha. destruct (Cabs2_nonneg a) as [H | H]; [exact H |].
  exfalso. apply Ha. apply Cabs2_zero. symmetry. exact H.
Qed.

Lemma Cinv_l (a : C) : a <> C0 -> Cmul (Cinv a) a = C1.
Proof.
  intros Ha. pose proof (Cabs2_pos a Ha) as Hp.
  destruct a as [x y]. unfold Cinv, Cmul, C1, Cabs2 in *. simpl in *.
  apply C_eq; simpl; field; lra.
Qed.

Lemma Cabs_RtoC (x : R) : 0 <= x -> Cabs (RtoC x) = x.
Proof.
  intros Hx. unfold Cabs, Cabs2, RtoC. simpl.
  replace (x * x + 0 * 0) with (Rsqr x) by (unfold Rsqr; ring).
  apply sqrt_Rsqr. exact Hx.
Qed.

Lemma Csum_mul_r (n : nat) (f : nat -> C) (c : C) :
  Csum n (fun i => Cmul (f i) c) = Cmul (Csum n f) c.
Proof.
  induction n as [| n IH]; simpl; [ring |]. rewrite IH. ring.
Qed.

Lemma Csum_mul_l (n : nat) (f : nat -> C) (c : C) :
  Csum n (fun i => Cmul c (f i)) = Cmul c (Csum n f).
Proof.
  induction n as [| n IH]; simpl; [ring |]. rewrite IH. ring.
Qed.

Lemma Csum_add (n : nat) (f g : nat -> C) :
  Csum n (fun i => Cadd (f i) (g i)) = Cadd (Csum n f) (Csum n g).
Proof.
  induction n as [| n IH]; simpl; [ring |]. rewrite IH. ring.
Qed.

Lemma Csum_zero (n : nat) : Csum n (fun _ => C0) = C0.
Proof.
  induction n as [| n IH]; simpl; [reflexivity |]. rewrite IH. ring.
Qed.

Lemma Csum_swap (n m : nat) (f : nat -> nat -> C) :
  Csum n (fun i => Csum m (fun j => f i j))
  = Csum m (fun j => Csum n (fun i => f i j)).
Proof.
  induction n as [| n IH]; simpl.
  - symmetry. apply Csum_zero.
  - rewrite IH. symmetry. apply Csum_add.
Qed.

Lemma Cconj_sum (n : nat) (f : nat -> C) :
  Cconj (Csum n f) = Csum n (fun i => Cconj (f i)).
Proof.
  induction n as [| n IH]; simpl; [csolve |].
  rewrite Cconj_add, IH. reflexivity.
Qed.

(** A sum against a row of the identity picks one term. *)
Lemma Csum_eye (n x : nat) (g : nat -> C) :
  (x < n)%nat ->
  Csum n (fun k => Cmul (g k) (Cconj (if (k =? x)%nat then C1 else C0))) = g x.
Proof.
  induction n as [| n IH]; intros Hx; [lia |].
  simpl. destruct (Nat.eq_dec x n) as [-> | Hne].
  - rewrite Nat.eqb_refl.
    rewrite (Csum_ext n _ (fun _ => C0)).
    + rewrite Csum_zero. csolve.
    + intros i Hi. destruct (Nat.eqb_spec i n); [lia | csolve].
  - rewrite IH by lia.
    destruct (Nat.eqb_spec n x); [lia | csolve].
Qed.

(** C2. With no iteration ([epochs <= 0]) and at least one frequency bin,
    [auxiva] returns an array equal to its input: the demixing matrices are
    the identity and no update is made. *)
Theorem auxiva_zero_epochs_identity (X : Arr3 C) (epochs : Z) :
  (epochs <= 0)%Z -> (1 <= dim2 X)%nat ->
  exists Y, auxiva X epochs = Ok Y /\ arr3_eq Y X.
Proof.
  intros He HF. unfold auxiva.
  destruct (Nat.eqb_spec (dim2 X) 0) as [H0 | _]; [lia |].
  replace (Z.to_nat epochs) with O by lia. simpl.
  eexists. split; [reflexivity |].
  unfold arr3_eq. simpl. repeat split.
  intros i j k Hi Hj Hk.
  unfold auxiva_einsum, auxiva_W0.
  apply (Csum_eye (dim0 X) i (fun n => at3 X n j k)). exact Hi.
Qed.

(** X11. The rescaled column has the energy [conj (1 / d)], where
    [d = w^H V w] is the energy of the solution [w] of the linear system:
    dividing by [d] instead of its square root leaves [1] only if [d = 1]. *)
Lemma auxiva_column_energy (N : nat) (V : matrix) (w : nat -> C) :
  auxiva_wVw N V w <> C0 ->
  auxiva_wVw N V (auxiva_column N V w) = Cconj (Cinv (auxiva_wVw N V w)).
Proof.
  intros Hd. unfold auxiva_column.
  set (d := auxiva_wVw N V w) in *.
  unfold auxiva_wVw at 1.
  rewrite (Csum_ext N _
             (fun i => Cmul (Cmul (Cconj (w i))
                                  (Csum N (fun j => Cmul (V i j) (w j))))
                            (Cmul (Cconj (Cinv d)) (Cinv d)))).
  - rewrite Csum_mul_r. fold (auxiva_wVw N V w). fold d.
    transitivity (Cmul (Cconj (Cinv d)) (Cmul (Cinv d) d)); [ring |].
    rewrite Cinv_l by exact Hd. ring.
  - intros i _. unfold Cdiv. rewrite Cconj_mul.
    rewrite (Csum_ext N (fun j => Cmul (V i j) (Cmul (w j) (Cinv d)))
                      (fun j => Cmul (Cmul (V i j) (w j)) (Cinv d)))
      by (intros; ring).
    rewrite Csum_mul_r. ring.
Qed.

(** C7. Without [srp_pair] the SRP estimator raises [ValueError], whatever
    the spectrogram, the steering vectors and the mask are: nothing is
    computed from them. *)
Theorem srp_ssl_requires_pair (stft sv : Arr3 C) (mask : option (Arr2 R)) :
  srp_ssl stft sv None mask = Raise ValueError.
Proof. reflexivity. Qed.

(** C1. One update on the one-channel, one-frame, one-bin mixture whose only
    coefficient is 2: the update succeeds, and the column written into [W]
    has the energy [w^H V w = 4 / (2 + EPSILON)], which is not 1. *)
Theorem auxiva_update_energy_not_one :
  0 <= EPSILON -> EPSILON <> 2 ->
  let X := const3 1 1 1 (RtoC 2) in
  let Xt := fun f t n => at3 X n t f in
  exists Gr W W',
    auxiva_reach X 0 0 0 = Ok (Gr, W) /\
    auxiva_update 1 1 Gr Xt 0 0 W = Ok W' /\
    auxiva_wVw 1 (auxiva_V 1 Gr Xt 0 0) (fun i => W' O i O)
    = RtoC (4 / (2 + EPSILON)) /\
    auxiva_wVw 1 (auxiva_V 1 Gr Xt 0 0) (fun i => W' O i O) <> C1.
Proof.
  intros Hpos Hne X Xt.
  eexists. eexists. eexists.
  split; [reflexivity |]. cbn [fst snd].
  set (Gr := auxiva_Gr _).
  assert (HGr : Gr O O = / (2 + EPSILON)).
  { subst Gr. unfold auxiva_Gr, auxiva_R, auxiva_einsum, auxiva_W0. simpl.
    replace (Cadd C0 (Cmul (RtoC 2) (Cconj C1))) with (RtoC 2) by csolve.
    rewrite Cabs_RtoC by lra.
    replace (0 + Rsqr 2) with (Rsqr 2) by ring.
    rewrite sqrt_Rsqr by lra. unfold Rdiv. ring. }
  set (V := auxiva_V 1 Gr Xt 0 0).
  assert (HV : V O O = RtoC (4 / (2 + EPSILON))).
  { subst V. unfold auxiva_V, Xt, X. simpl. rewrite HGr.
    unfold Cscal, Cmul, Cadd, Cconj, RtoC, C0. simpl.
    apply C_eq; simpl; field; lra. }
  assert (HA : auxiva_WV 1 (auxiva_W0 O) V O O = RtoC (4 / (2 + EPSILON))).
  { unfold auxiva_WV, auxiva_W0. simpl. rewrite HV. csolve. }
  assert (Hpos4 : 0 < 4 / (2 + EPSILON)).
  { apply Rdiv_lt_0_compat; lra. }
  assert (Hdet : Cdet 1 (auxiva_WV 1 (auxiva_W0 O) V)
                 = RtoC (4 / (2 + EPSILON))).
  { simpl. rewrite HA. csolve. }
  unfold auxiva_update. fold V. unfold np_linalg_solve.
  destruct (Ceq_dec (Cdet 1 (auxiva_WV 1 (auxiva_W0 O) V)) C0) as [Hz | _].
  { exfalso. rewrite Hdet in Hz. apply (f_equal fst) in Hz. simpl in Hz. lra. }
  simpl bind.
  set (w := fun j : nat => Cdiv _ _).
  assert (Hw : w O = RtoC ((2 + EPSILON) / 4)).
  { subst w. cbv beta. rewrite HA.
    unfold replace_col, eye_row. simpl.
    unfold Cdiv, Cinv, Cmul, Cadd, Cabs2, RtoC, C0, C1. simpl.
    apply C_eq; simpl; field; lra. }
  assert (Hd : auxiva_wVw 1 V w = RtoC ((2 + EPSILON) / 4)).
  { unfold auxiva_wVw. simpl. rewrite Hw, HV.
    unfold Cmul, Cadd, Cconj, RtoC, C0. simpl.
    apply C_eq; simpl; field; lra. }
  assert (Hcol : set_column auxiva_W0 0 0 (auxiva_column 1 V w) O O O = C1).
  { unfold set_column, auxiva_column. simpl. rewrite Hd, Hw.
    unfold Cdiv, Cinv, Cmul, Cabs2, RtoC, C1. simpl.
    apply C_eq; simpl; field; lra. }
  split; [reflexivity |].
  assert (Hen : auxiva_wVw 1 V
                  (fun i => set_column auxiva_W0 0 0 (auxiva_column 1 V w) O i O)
                = RtoC (4 / (2 + EPSILON))).
  { unfold auxiva_wVw. simpl. rewrite Hcol, HV. csolve. }
  split; [exact Hen |].
  intros H0. pose proof (eq_trans (eq_sym Hen) H0) as H. clear H0.
  apply (f_equal fst) in H. simpl in H.
  apply Hne. apply (f_equal (fun x => x * (2 + EPSILON))) in H.
  unfold Rdiv in H. rewrite Rmult_assoc, Rinv_l in H by lra. lra.
Qed.

(** ** Extremal indices *)

Lemma argmax_upto_spec (f : nat -> R) (k : nat) :
  first_argmax (S k) f (argmax_upto f k).
Proof.
  induction k as [| k [IHlt [IHmax IHfirst]]].
  - simpl. repeat split.
    + lia.
    + intros a Ha. replace a with O by lia. lra.
    + intros a Ha. lia.
  - simpl. set (b := argmax_upto f k) in *.
    destruct (Rlt_dec (f b) (f (S k))) as [Hlt | Hge].
    + repeat split.
      * lia.
      * intros a Ha. destruct (Nat.eq_dec a (S k)) as [-> | Hne]; [lra |].
        specialize (IHmax a ltac:(lia)). lra.
      * intros a Ha. specialize (IHmax a ltac:(lia)). lra.
    + repeat split.
      * lia.
      * intros a Ha. destruct (Nat.eq_dec a (S k)) as [-> | Hne]; [lra |].
        apply IHmax. lia.
      * exact IHfirst.
Qed.

Lemma argmin_upto_spec (f : nat -> R) (k : nat) :
  first_argmin (S k) f (argmin_upto f k).
Proof.
  induction k as [| k [IHlt [IHmin IHfirst]]].
  - simpl. repeat split.
    + lia.
    + intros a Ha. replace a with O by lia. lra.
    + intros a Ha. lia.
  - simpl. set (b := argmin_upto f k) in *.
    destruct (Rlt_dec (f (S k)) (f b)) as [Hlt | Hge].
    + repeat split.
      * lia.
      * intros a Ha. destruct (Nat.eq_dec a (S k)) as [-> | Hne]; [lra |].
        specialize (IHmin a ltac:(lia)). lra.
      * intros a Ha. specialize (IHmin a ltac:(lia)). lra.
    + repeat split.
      * lia.
      * intros a Ha. destruct (Nat.eq_dec a (S k)) as [-> | Hne]; [lra |].
        apply IHmin. lia.
      * exact IHfirst.
Qed.


Lemma argmin_upto_ext (f g : nat -> R) (k : nat) :
  (forall i, (i <= k)%nat -> f i = g i) ->
  argmin_upto f k = argmin_upto g k.
Proof.
  induction k as [| k IH]; intros H; simpl; [reflexivity |].
  rewrite <- IH by (intros; apply H; lia).
  pose proof (argmin_upto_spec f k) as [Hlt _].
  rewrite <- (H (argmin_upto f k)) by lia.
  rewrite <- (H (S k)) by lia. reflexivity.
Qed.

Lemma first_argmax_ext (n : nat) (f g : nat -> R) (i : nat) :
  (forall a, (a < n)%nat -> f a = g a) ->
  first_argmax n f i -> first_argmax n g i.
Proof.
  intros H [Hlt [Hmax Hfirst]]. repeat split.
  - exact Hlt.
  - intros a Ha. rewrite <- !H by lia. apply Hmax. exact Ha.
  - intros a Ha. rewrite <- !H by lia. apply Hfirst. exact Ha.
Qed.

Lemma first_argmin_ext (n : nat) (f g : nat -> R) (i : nat) :
  (forall a, (a < n)%nat -> f a = g a) ->
  first_argmin n f i -> first_argmin n g i.
Proof.
  intros H [Hlt [Hmin Hfirst]]. repeat split.
  - exact Hlt.
  - intros a Ha. rewrite <- !H by lia. apply Hmin. exact Ha.
  - intros a Ha. rewrite <- !H by lia. apply Hfirst. exact Ha.
Qed.

(** ** Oracle masks *)

Lemma indicator_sum (x n a : nat) :
  list_sum (map (fun s => Nat.b2n (x =? s)%nat) (seq a n))
  = if ((a <=? x) && (x <? a + n))%nat%bool then 1%nat else 0%nat.
Proof.
  revert a. induction n as [| n IH]; intros a; simpl.
  - destruct (Nat.leb_spec a x), (Nat.ltb_spec x (a + 0)); simpl; lia.
  - rewrite IH.
    destruct (Nat.eqb_spec x a), (Nat.leb_spec a x), (Nat.leb_spec (S a) x),
      (Nat.ltb_spec x (S a + n)), (Nat.ltb_spec x (a + S n)); simpl; lia.
Qed.

Lemma np_stack_same_shape (r c : nat) (l : list (Arr2 R)) :
  l <> [] -> (forall m, In m l -> rows m = r /\ cols m = c) ->
  exists x, np_stack l = Ok x /\ dim0 x = List.length l /\ dim1 x = r /\
            dim2 x = c.
Proof.
  intros Hne Hshape. destruct l as [| a l']; [contradiction |].
  unfold np_stack.
  assert (Hall : forallb (fun b => (rows b =? rows a)%nat
                                   && (cols b =? cols a)%nat) l' = true).
  { apply forallb_forall. intros b Hb.
    destruct (Hshape a (or_introl eq_refl)) as [-> ->].
    destruct (Hshape b (or_intror Hb)) as [-> ->].
    rewrite !Nat.eqb_refl. reflexivity. }
  rewrite Hall. eexists. split; [reflexivity |]. simpl.
  destruct (Hshape a (or_introl eq_refl)) as [-> ->]. auto.
Qed.

(** C10. For the mask type ["ibm"], with at least one target and all
    targets of the mixture's shape, [compute_mask] returns one boolean mask
    per target, each of the mixture's shape; in every time-frequency cell
    exactly one mask is set, so the masks add up to 1 in every cell. *)
Theorem compute_mask_ibm_partition (mixture : Arr2 C)
        (targets_list : list (Arr2 C)) :
  targets_list <> [] ->
  (forall m, In m targets_list ->
             rows m = rows mixture /\ cols m = cols mixture) ->
  exists l,
    compute_mask mixture targets_list "ibm" = Ok (BoolMasks l) /\
    List.length l = List.length targets_list /\
    (forall m, In m l -> rows m = rows mixture /\ cols m = cols mixture) /\
    forall i j, (i < rows mixture)%nat -> (j < cols mixture)%nat ->
      (exists s, (s < List.length l)%nat /\
         forall s', (s' < List.length l)%nat ->
           at2 (nth s' l (mkArr2 O O (fun _ _ => false))) i j
           = (s' =? s)%nat) /\
      list_sum (map (fun m => Nat.b2n (at2 m i j)) l) = 1%nat.
Proof.
  intros Hne Hshape.
  unfold compute_mask. simpl String.eqb. cbv iota.
  destruct (np_stack_same_shape (rows mixture) (cols mixture)
              (map (map2d cmat_abs) targets_list))
    as [x [Hx [Hd0 [Hd1 Hd2]]]].
  { destruct targets_list; [contradiction | discriminate]. }
  { intros m Hm. apply in_map_iff in Hm. destruct Hm as [m' [<- Hm']].
    simpl. apply Hshape. exact Hm'. }
  rewrite Hx. cbv beta iota delta [bind]. rewrite length_map in Hd0.
  unfold argmax_first. rewrite Hd0.
  destruct (List.length targets_list) as [| k] eqn:Hlen.
  { destruct targets_list; [contradiction | discriminate]. }
  cbv beta iota delta [bind]. eexists. split; [reflexivity |].
  rewrite length_map, length_seq.
  split; [reflexivity |]. split.
  { intros m Hm. apply in_map_iff in Hm. destruct Hm as [s [<- _]].
    simpl. auto. }
  intros i j Hi Hj.
  set (best := argmax_upto (fun s => at3 x s i j) k).
  assert (Hbest : (best < S k)%nat) by apply argmax_upto_spec.
  split.
  - exists best. split; [exact Hbest |]. intros s' Hs'.
    rewrite (nth_indep _ _ (map2d (fun m => (m =? 0)%nat)
                                   (mkArr2 (dim1 x) (dim2 x)
                                      (fun i j => argmax_upto
                                         (fun s => at3 x s i j) k))))
      by (rewrite length_map, length_seq; exact Hs').
    rewrite (map_nth (fun s => map2d (fun m => (m =? s)%nat) _) (seq 0 (S k)) O s').
    rewrite seq_nth by exact Hs'. simpl. fold best. apply Nat.eqb_sym.
  - rewrite map_map. simpl at2. fold best.
    rewrite (indicator_sum best (S k) 0).
    destruct (Nat.leb_spec 0 best), (Nat.ltb_spec best (0 + S k)); simpl; lia.
Qed.

(** ** Spatial features *)

Lemma mapM_raises {A B : Type} (g : A -> result B) (l : list A) (x : A) :
  In x l -> raises (g x) -> raises (mapM g l).
Proof.
  induction l as [| a l IH]; intros Hin Hx; [contradiction |].
  simpl. destruct Hin as [-> | Hin].
  - destruct Hx as [e He]. rewrite He. exists e. reflexivity.
  - destruct (g a) as [b |e]; simpl; [| exists e; reflexivity].
    destruct (IH Hin Hx) as [e He]. rewrite He. exists e. reflexivity.
Qed.

Lemma np_index_out (n : nat) (i : Z) :
  (Z.of_nat n <= i)%Z -> np_index n i = Raise IndexError.
Proof.
  intros H. unfold np_index.
  destruct (Z.leb_spec 0 i), (Z.ltb_spec i (Z.of_nat n)),
    (Z.leb_spec (- Z.of_nat n) i), (Z.ltb_spec i 0); simpl;
    try reflexivity; lia.
Qed.

Lemma np_index_cases (n : nat) (i : Z) :
  np_index n i = Raise IndexError \/ exists k, np_index n i = Ok k.
Proof.
  unfold np_index.
  destruct ((0 <=? i) && (i <? Z.of_nat n))%Z; [right; eauto |].
  destruct ((- Z.of_nat n <=? i) && (i <? 0))%Z; [right; eauto | left].
  reflexivity.
Qed.

(** A pair with an index at or beyond the channel count raises before its
    feature is computed: [RuntimeError] from the explicit test when the
    right index is beyond the count, [IndexError] from the indexing
    otherwise. *)
Lemma ipd_of_pair_out (s : Arr3 C) (c d : bool) (L R_ : Z) :
  (Z.of_nat (dim0 s) <= L \/ Z.of_nat (dim0 s) <= R_)%Z ->
  ipd_of_pair s c d [L; R_]
  = Raise (if (Z.of_nat (dim0 s) <? R_)%Z then RuntimeError else IndexError).
Proof.
  intros H. unfold ipd_of_pair.
  destruct (Z.ltb_spec (Z.of_nat (dim0 s)) R_) as [Hgt | Hle];
    [reflexivity |].
  destruct (Z_le_gt_dec (Z.of_nat (dim0 s)) L) as [HL | HL].
  - rewrite (np_index_out _ _ HL). reflexivity.
  - assert (HR : (Z.of_nat (dim0 s) <= R_)%Z) by lia.
    rewrite (np_index_out _ _ HR).
    destruct (np_index_cases (dim0 s) L) as [-> | [l ->]]; reflexivity.
Qed.

Lemma compute_spatial_feats_ipd (args : Args) (S : spectrogram) :
  type args = "ipd"%string ->
  compute_spatial_feats args S = ipd_feats args S.
Proof.
  intros H. unfold compute_spatial_feats. rewrite H. reflexivity.
Qed.




(** ** Localisation: shapes *)

Lemma bind_raise_value {A B : Type} (m : result A) (k : A -> result B) :
  (m = Raise ValueError \/ exists a, m = Ok a) ->
  (forall a, m = Ok a -> k a = Raise ValueError) ->
  bind m k = Raise ValueError.
Proof.
  intros [-> | [a ->]] Hk; simpl; [reflexivity |]. apply Hk. reflexivity.
Qed.

Lemma bcast_ok_left (a b n : nat) :
  a <> 1%nat -> bcast a b = Ok n -> n = a.
Proof.
  unfold bcast. intros Ha.
  destruct (Nat.eqb_spec a b); [intros [= <-]; reflexivity |].
  destruct (Nat.eqb_spec a 1); [contradiction |].
  destruct (b =? 1)%nat; [intros [= <-]; reflexivity | discriminate].
Qed.

Lemma ml_ssl_bins_mismatch (stft sv : Arr3 C) (compression eps : R)
      (norm : bool) (mask : option mask_arg) :
  dim2 sv <> dim2 stft -> dim2 sv <> 1%nat -> dim2 stft <> 1%nat ->
  ml_ssl stft sv compression eps norm mask = Raise ValueError.
Proof.
  intros Hne Hsv Hst. unfold ml_ssl.
  assert (Hcor : ml_ssv_cor (sv_normalize sv)
                   (if norm then stft_normalize stft eps else stft)
                 = Raise ValueError).
  { unfold ml_ssv_cor.
    replace (dim2 (if norm then stft_normalize stft eps else stft))
      with (dim2 stft) by (destruct norm; reflexivity).
    simpl dim2. rewrite (bcast_mismatch _ _ Hne Hsv Hst).
    destruct (bcast_cases (dim1 (sv_normalize sv))
                (dim0 (if norm then stft_normalize stft eps else stft)))
      as [-> | [Mb ->]]; reflexivity. }
  rewrite Hcor. reflexivity.
Qed.

Lemma srp_ssl_bins_mismatch (stft sv : Arr3 C)
      (srp_pair : option (list nat * list nat)) (mask : option (Arr2 R)) :
  dim2 sv <> dim2 stft -> dim2 sv <> 1%nat -> dim2 stft <> 1%nat ->
  srp_ssl stft sv srp_pair mask = Raise ValueError \/
  srp_ssl stft sv srp_pair mask = Raise IndexError.
Proof.
  intros Hne Hsv Hst. unfold srp_ssl.
  destruct srp_pair as [[index_l index_r] |]; [| left; reflexivity].
  unfold srp_obs_ipd, srp_ora_ipd, check_indices. simpl dim0. simpl dim1.
  destruct (forallb _ index_l); simpl; [| right; reflexivity].
  destruct (forallb _ index_r); simpl; [| right; reflexivity].
  destruct (bcast (List.length index_l) (List.length index_r)) as [P |e] eqn:HP;
    simpl.
  2:{ destruct (bcast_cases (List.length index_l) (List.length index_r))
        as [H | [n H]]; rewrite H in HP; [| discriminate].
      injection HP as <-. left. reflexivity. }
  destruct (forallb _ index_l); simpl; [| right; reflexivity].
  destruct (forallb _ index_r); simpl; [| right; reflexivity].
  left. unfold srp_af. simpl.
  rewrite bcast_one_l, bcast_same, bcast_one_r. simpl.
  rewrite (bcast_mismatch (dim2 stft) (dim2 sv)) by auto. reflexivity.
Qed.

Lemma music_ssl_bins_mismatch (stft sv : Arr3 C) (mask : option (Arr2 R)) :
  dim2 sv <> dim2 stft -> dim2 sv <> 1%nat -> dim2 stft <> 1%nat ->
  music_ssl stft sv mask = Raise ValueError.
Proof.
  intros Hne Hsv Hst. unfold music_ssl.
  set (m := match mask with None => _ | Some m => m end).
  unfold music_obs.
  apply bind_raise_value.
  { destruct (bcast_cases (dim1 stft) (rows m)) as [-> | [Tb ->]]; simpl;
      [left; reflexivity |].
    destruct (bcast_cases (dim2 stft) (cols m)) as [-> | [Fb ->]]; simpl;
      [left; reflexivity | right; eauto]. }
  intros obs Hobs.
  destruct (bcast (dim1 stft) (rows m)) as [Tb |]; simpl in Hobs;
    [| discriminate].
  destruct (bcast (dim2 stft) (cols m)) as [Fb |] eqn:HFb; simpl in Hobs;
    [| discriminate].
  injection Hobs as <-.
  apply (bcast_ok_left _ _ _ Hst) in HFb. subst Fb.
  unfold music_denorm. simpl.
  rewrite (bcast_mismatch (dim2 sv) (dim2 stft)) by auto. reflexivity.
Qed.

(** C6. When the frequency axis of the steering-vector bank and that of the
    spectrogram have different lengths and neither length is 1, each of the
    three estimators raises and returns no index: [ml_ssl] and [music_ssl]
    raise [ValueError], [srp_ssl] raises [ValueError] or, for a channel
    index outside the arrays, [IndexError]. *)
Theorem ssl_bins_mismatch_raises (stft sv : Arr3 C) (compression eps : R)
        (norm : bool) (ml_mask : option mask_arg)
        (srp_pair : option (list nat * list nat)) (mask : option (Arr2 R)) :
  dim2 sv <> dim2 stft -> dim2 sv <> 1%nat -> dim2 stft <> 1%nat ->
  ml_ssl stft sv compression eps norm ml_mask = Raise ValueError /\
  (srp_ssl stft sv srp_pair mask = Raise ValueError \/
   srp_ssl stft sv srp_pair mask = Raise IndexError) /\
  music_ssl stft sv mask = Raise ValueError.
Proof.
  intros Hne Hsv Hst. split; [| split].
  - apply ml_ssl_bins_mismatch; assumption.
  - apply srp_ssl_bins_mismatch; assumption.
  - apply music_ssl_bins_mismatch; assumption.
Qed.

(** ** Maximum-likelihood localisation *)

Lemma ml_observed_shape (stft : Arr3 C) (eps : R) (norm : bool) :
  dim0 (ml_observed stft eps norm) = dim0 stft /\
  dim1 (ml_observed stft eps norm) = dim1 stft /\
  dim2 (ml_observed stft eps norm) = dim2 stft.
Proof. destruct norm; simpl; auto. Qed.

Ltac unbix :=
  repeat match goal with
         | |- context [bix ?d ?i] => rewrite (bix_in_range d i) by lia
         end.

(** On arrays of matching shapes the score computed by [ml_ssl] for the
    direction [a] and a 2-D mask is the mask-weighted sum of the cells. *)
Lemma ml_loglike2_score (X sv : Arr3 C) (compression eps : R) (m : Arr2 R) :
  dim1 sv = dim0 X -> dim2 sv = dim2 X ->
  rows m = dim1 X -> cols m = dim2 X ->
  exists ssv delta ll,
    ml_ssv_cor (sv_normalize sv) X = Ok ssv /\
    ml_delta (ml_ssh_cor X) ssv eps = Ok delta /\
    ml_loglike2 m (ml_tf_loglike delta compression eps) = Ok ll /\
    len ll = dim0 sv /\
    forall a, (a < dim0 sv)%nat ->
      at1 ll a
      = spec_ml_score X (sv_normalize sv) compression eps (at2 m) a.
Proof.
  intros HM HF Hr Hc.
  unfold ml_ssv_cor. simpl dim1. simpl dim2.
  rewrite HM, HF, !bcast_same. cbv beta iota delta [bind].
  do 3 eexists. split; [reflexivity |].
  unfold ml_delta. simpl.
  rewrite bcast_one_l, !bcast_same. cbv beta iota delta [bind].
  split; [reflexivity |].
  unfold ml_loglike2. simpl.
  rewrite bcast_one_l, Hr, Hc, !bcast_same. cbv beta iota delta [bind].
  split; [reflexivity |]. simpl.
  split; [reflexivity |].
  intros a Ha. unfold spec_ml_score.
  apply Rsum_ext. intros t Ht. apply Rsum_ext. intros f Hf.
  unbix. f_equal.
  unfold spec_ml_cell, spec_ml_delta.
  rewrite (Csum_ext (dim0 X)
             (fun m0 => Cmul (Cscal (/ sv_norm sv a f)
                                    (at3 sv a (bix (dim0 X) m0) f))
                             (Cconj (at3 X (bix (dim0 X) m0) t f)))
             (fun m0 => Cmul (at3 (sv_normalize sv) a m0 f)
                             (Cconj (at3 X m0 t f)))).
  - reflexivity.
  - intros m0 Hm0. unbix. reflexivity.
Qed.

Lemma ml_loglike3_score (X sv : Arr3 C) (compression eps : R) (m : Arr3 R) :
  dim1 sv = dim0 X -> dim2 sv = dim2 X ->
  dim1 m = dim1 X -> dim2 m = dim2 X ->
  exists ssv delta ll,
    ml_ssv_cor (sv_normalize sv) X = Ok ssv /\
    ml_delta (ml_ssh_cor X) ssv eps = Ok delta /\
    ml_loglike3 m (ml_tf_loglike delta compression eps) = Ok ll /\
    rows ll = dim0 m /\ cols ll = dim0 sv /\
    forall n a, (a < dim0 sv)%nat ->
      at2 ll n a
      = spec_ml_score X (sv_normalize sv) compression eps (at3 m n) a.
Proof.
  intros HM HF Hr Hc.
  unfold ml_ssv_cor. simpl dim1. simpl dim2.
  rewrite HM, HF, !bcast_same. cbv beta iota delta [bind].
  do 3 eexists. split; [reflexivity |].
  unfold ml_delta. simpl.
  rewrite bcast_one_l, !bcast_same. cbv beta iota delta [bind].
  split; [reflexivity |].
  unfold ml_loglike3. simpl.
  rewrite Hr, Hc, !bcast_same. cbv beta iota delta [bind].
  split; [reflexivity |]. simpl.
  split; [reflexivity |]. split; [reflexivity |].
  intros n a Ha. unfold spec_ml_score.
  apply Rsum_ext. intros t Ht. apply Rsum_ext. intros f Hf.
  unbix. f_equal.
  unfold spec_ml_cell, spec_ml_delta.
  rewrite (Csum_ext (dim0 X)
             (fun m0 => Cmul (Cscal (/ sv_norm sv a f)
                                    (at3 sv a (bix (dim0 X) m0) f))
                             (Cconj (at3 X (bix (dim0 X) m0) t f)))
             (fun m0 => Cmul (at3 (sv_normalize sv) a m0 f)
                             (Cconj (at3 X m0 t f)))).
  - reflexivity.
  - intros m0 Hm0. unbix. reflexivity.
Qed.

(** C4. On a spectrogram, a bank with the same channel and frequency axes
    and at least one direction, and a mask of the spectrogram's time and
    frequency axes, [ml_ssl] returns the first direction that maximises the
    mask-weighted sum over time and frequency of the per-cell
    log-likelihoods [spec_ml_cell], which are computed from the deficit
    [spec_ml_delta] of the observed spectrum and the channel-normalised
    steering vectors [spec_unit_bank]: every steering vector divided by its
    norm over the channels; with a mask that has a source axis it returns
    one such direction per source. *)
Theorem ml_ssl_maximises_loglike (stft sv : Arr3 C) (compression eps : R)
        (norm : bool) (mask : option mask_arg) :
  dim1 sv = dim0 stft -> dim2 sv = dim2 stft -> (0 < dim0 sv)%nat ->
  mask_fits mask (dim1 stft) (dim2 stft) ->
  let X := spec_observed stft eps norm in
  let score := spec_ml_score X (spec_unit_bank sv) compression eps in
  match mask with
  | None =>
      exists i, ml_ssl stft sv compression eps norm mask = Ok (Doa i) /\
                first_argmax (dim0 sv) (score (fun _ _ => 1)) i
  | Some (Mask2 m) =>
      exists i, ml_ssl stft sv compression eps norm mask = Ok (Doa i) /\
                first_argmax (dim0 sv) (score (at2 m)) i
  | Some (Mask3 m) =>
      exists l, ml_ssl stft sv compression eps norm mask = Ok (Doas l) /\
                len l = dim0 m /\
                forall n, (n < dim0 m)%nat ->
                          first_argmax (dim0 sv) (score (at3 m n)) (at1 l n)
  end.
Proof.
  intros HM HF HA Hfit. cbv zeta.
  change (spec_unit_bank sv) with (sv_normalize sv).
  change (spec_observed stft eps norm) with (ml_observed stft eps norm).
  set (X := ml_observed stft eps norm).
  set (score := spec_ml_score X (sv_normalize sv) compression eps).
  destruct (ml_observed_shape stft eps norm) as [HX0 [HX1 HX2]].
  fold X in HX0, HX1, HX2.
  assert (Hargmax : forall (g h : nat -> R),
             (forall a, (a < dim0 sv)%nat -> g a = h a) ->
             exists i, np_argmax (dim0 sv) g = Ok i /\
                       first_argmax (dim0 sv) h i).
  { intros g h Hgh. destruct (dim0 sv) as [| k]; [lia |].
    simpl. eexists. split; [reflexivity |].
    apply (first_argmax_ext _ g h _ Hgh). apply argmax_upto_spec. }
  unfold ml_ssl. cbv zeta.
  change (if norm then stft_normalize stft eps else stft) with X.
  destruct mask as [[m | m] |]; simpl in Hfit.
  - destruct Hfit as [Hr Hc].
    destruct (ml_loglike2_score X sv compression eps m)
      as [ssv [delta [ll [H1 [H2 [H3 [Hlen Hll]]]]]]]; try congruence.
    rewrite H1. cbv beta iota delta [bind].
    rewrite H2. cbv beta iota delta [bind].
    rewrite H3. cbv beta iota delta [bind]. rewrite Hlen.
    destruct (Hargmax (at1 ll) (score (at2 m)) Hll) as [i [-> Hi]].
    exists i. split; [reflexivity | exact Hi].
  - destruct Hfit as [Hr Hc].
    destruct (ml_loglike3_score X sv compression eps m)
      as [ssv [delta [ll [H1 [H2 [H3 [Hrows [Hcols Hll]]]]]]]]; try congruence.
    rewrite H1. cbv beta iota delta [bind].
    rewrite H2. cbv beta iota delta [bind].
    rewrite H3. cbv beta iota delta [bind].
    unfold argmax_last. rewrite Hcols.
    destruct (dim0 sv) as [| k] eqn:HAk; [lia |].
    eexists. split; [reflexivity |]. simpl. split; [exact Hrows |].
    intros n Hn.
    apply (first_argmax_ext _ (at2 ll n) (score (at3 m n))).
    + intros a Ha. apply Hll. lia.
    + apply argmax_upto_spec.
  - destruct (ml_loglike2_score X sv compression eps
                (np_ones (dim1 stft) (dim2 stft)))
      as [ssv [delta [ll [H1 [H2 [H3 [Hlen Hll]]]]]]]; simpl; try congruence.
    rewrite H1. cbv beta iota delta [bind].
    rewrite H2. cbv beta iota delta [bind].
    rewrite H3. cbv beta iota delta [bind]. rewrite Hlen.
    destruct (Hargmax (at1 ll) (score (fun _ _ => 1)) Hll) as [i [-> Hi]].
    exists i. split; [reflexivity | exact Hi].
Qed.

(** ** Scaling the steering vectors *)

Lemma Rsum_scal (n : nat) (r : R) (f : nat -> R) :
  Rsum n (fun i => r * f i) = r * Rsum n f.
Proof.
  induction n as [| n IH]; simpl; [ring |]. rewrite IH. ring.
Qed.

Lemma Rsum_nonneg (n : nat) (f : nat -> R) :
  (forall i, (i < n)%nat -> 0 <= f i) -> 0 <= Rsum n f.
Proof.
  induction n as [| n IH]; intros H; simpl; [lra |].
  specialize (IH ltac:(intros; apply H; lia)).
  specialize (H n ltac:(lia)). lra.
Qed.





Lemma bix_lt (a b n i : nat) :
  bcast a b = Ok n -> (i < n)%nat -> (bix a i < a)%nat /\ (bix b i < b)%nat.
Proof.
  unfold bcast, bix. intros H Hi.
  destruct (Nat.eqb_spec a b) as [-> | Hab].
  - injection H as <-. destruct (Nat.eqb_spec b 1); lia.
  - destruct (Nat.eqb_spec a 1) as [-> | Ha1].
    + injection H as <-. destruct (Nat.eqb_spec b 1); lia.
    + destruct (Nat.eqb_spec b 1) as [-> | Hb1]; [| discriminate].
      injection H as <-. lia.
Qed.













(** ** MUSIC *)

Lemma RtoC_sum (n : nat) (g : nat -> R) :
  RtoC (Rsum n g) = Csum n (fun k => RtoC (g k)).
Proof.
  induction n as [| n IH]; simpl; [reflexivity |].
  rewrite <- IH. csolve.
Qed.

Lemma Csum_prod (n m : nat) (f g : nat -> C) :
  Cmul (Csum n f) (Csum m g)
  = Csum n (fun i => Csum m (fun j => Cmul (f i) (g j))).
Proof.
  rewrite <- Csum_mul_r. apply Csum_ext. intros i _.
  rewrite Csum_mul_l. reflexivity.
Qed.

(** The quadratic form of a vector [s] in the matrix [E E^H] is the sum,
    over the columns of [E], of the squared magnitude of the inner product
    of the column with [s]. *)
Lemma projector_energy (M K : nat) (E : nat -> nat -> C) (s : nat -> C) :
  Csum M (fun i => Csum M (fun j =>
    Cmul (Cmul (Cconj (s i))
               (Csum K (fun k => Cmul (E i k) (Cconj (E j k)))))
         (s j)))
  = RtoC (Rsum K (fun k =>
      Cabs2 (Csum M (fun m => Cmul (Cconj (E m k)) (s m))))).
Proof.
  rewrite RtoC_sum.
  transitivity
    (Csum M (fun i => Csum M (fun j => Csum K (fun k =>
       Cmul (Cmul (E i k) (Cconj (s i))) (Cmul (Cconj (E j k)) (s j)))))).
  { apply Csum_ext. intros i _. apply Csum_ext. intros j _.
    rewrite <- Csum_mul_l, <- Csum_mul_r. apply Csum_ext. intros k _. ring. }
  transitivity
    (Csum K (fun k => Csum M (fun i => Csum M (fun j =>
       Cmul (Cmul (E i k) (Cconj (s i))) (Cmul (Cconj (E j k)) (s j)))))).
  { rewrite (Csum_swap K M). apply Csum_ext. intros i _.
    apply (Csum_swap M K). }
  apply Csum_ext. intros k _.
  rewrite <- Cmul_conj, Cconj_sum, Csum_prod.
  apply Csum_ext. intros i _. apply Csum_ext. intros j _.
  rewrite Cconj_mul, Cconj_invol. reflexivity.
Qed.

Lemma Rsum_skip_last (n : nat) (g : nat -> R) :
  (0 < n)%nat ->
  Rsum n (fun k => if (k =? n - 1)%nat then 0 else g k) = Rsum (n - 1) g.
Proof.
  intros Hn. destruct n as [| n]; [lia |].
  replace (S n - 1)%nat with n by lia.
  simpl. rewrite Nat.eqb_refl, Rplus_0_r.
  apply Rsum_ext. intros k Hk.
  destruct (Nat.eqb_spec k n); [lia | reflexivity].
Qed.

(** With a mask of the spectrogram's time and frequency axes, the matrix of
    bin [f] that [music_ssl] hands to [eigh] is the channel covariance of
    the masked spectrum. *)
Lemma music_obs_covar_spec (stft : Arr3 C) (m : Arr2 R) :
  rows m = dim1 stft -> cols m = dim2 stft ->
  exists obs,
    music_obs stft m = Ok obs /\
    dim0 obs = dim2 stft /\ dim1 obs = dim0 stft /\
    forall f, (f < dim2 stft)%nat ->
      at3 (music_obs_covar obs (dim1 stft)) f
      = spec_music_covar stft (at2 m) f.
Proof.
  intros Hr Hc. unfold music_obs. rewrite Hr, Hc, !bcast_same.
  cbv beta iota delta [bind]. eexists. split; [reflexivity |].
  split; [reflexivity |]. split; [reflexivity |].
  intros f Hf. unfold music_obs_covar, spec_music_covar. cbn [at3 dim2].
  apply functional_extensionality. intros a.
  apply functional_extensionality. intros b.
  f_equal. apply Csum_ext. intros t Ht. unbix. reflexivity.
Qed.

(** C9. On a spectrogram with at least one channel, with a bank and a mask
    that fit it and at least one direction, and with the eigenvalues of
    every bin's channel covariance in the ascending order of [eigh]:
    [music_ssl] returns the first direction that minimises the projection
    energy [spec_music_energy], that is the squared magnitude of the inner
    products of the direction's steering vectors with all eigenvectors of
    the bin's covariance [spec_music_covar] except one, which belongs to a
    largest eigenvalue of the bin, summed over the frequency bins. *)
Theorem music_ssl_minimises_noise_energy (stft sv : Arr3 C)
        (mask : option (Arr2 R)) :
  (forall f i j,
      (f < dim2 stft)%nat -> (i <= j < dim0 stft)%nat ->
      spec_music_eigenvalue stft (mask_weight mask) f i
      <= spec_music_eigenvalue stft (mask_weight mask) f j) ->
  (0 < dim0 stft)%nat ->
  dim1 sv = dim0 stft -> dim2 sv = dim2 stft -> (0 < dim0 sv)%nat ->
  (forall m, mask = Some m -> rows m = dim1 stft /\ cols m = dim2 stft) ->
  exists i top,
    music_ssl stft sv mask = Ok i /\
    dominant stft (mask_weight mask) top /\
    first_argmin (dim0 sv)
      (spec_music_energy stft (mask_weight mask) top sv) i.
Proof.
  intros Hasc HM0 HM HF HA Hmask.
  set (m := match mask with
            | None => np_ones (dim1 stft) (dim2 stft)
            | Some m => m
            end).
  assert (Hshape : rows m = dim1 stft /\ cols m = dim2 stft).
  { subst m. destruct mask as [m |]; [apply Hmask; reflexivity |].
    simpl. auto. }
  destruct Hshape as [Hr Hc].
  assert (Hw : mask_weight mask = at2 m).
  { subst m. destruct mask; reflexivity. }
  destruct (music_obs_covar_spec stft m Hr Hc)
    as [obs [Hobs [Hd0 [Hd1 Hcov]]]].
  rewrite <- Hw in Hcov.
  set (w := mask_weight mask) in *.
  set (covar := music_obs_covar obs (dim1 stft)) in *.
  set (noise_sub := music_noise_sub covar).
  assert (Hn2 : dim2 noise_sub = (dim0 stft - 1)%nat).
  { simpl. rewrite Hd1. reflexivity. }
  assert (Hvec : forall f a k, (f < dim2 stft)%nat ->
             at3 noise_sub f a k = spec_music_eigenvector stft w f a k).
  { intros f a k Hf. unfold spec_music_eigenvector.
    rewrite <- (Hcov f Hf). simpl. rewrite Hd1. reflexivity. }
  unfold music_ssl. fold m. rewrite Hobs. cbv beta iota delta [bind].
  fold covar. fold noise_sub.
  unfold music_denorm. simpl dim0. simpl dim1. simpl dim2.
  rewrite Hd0, Hd1, HM, HF, !bcast_same, bcast_one_r.
  cbv beta iota delta [bind].
  unfold np_argmin, music_score. cbn [len at1 rows cols at2].
  destruct (dim0 sv) as [| k] eqn:HAk; [lia |].
  eexists. exists (fun _ => (dim0 stft - 1)%nat).
  split; [reflexivity |]. split.
  { intros f Hf. split; [lia |]. intros j Hj. apply Hasc; [exact Hf | lia]. }
  eapply first_argmin_ext; [| apply argmin_upto_spec].
  intros a Ha. unfold spec_music_energy.
  apply Rsum_ext. intros f Hf.
  rewrite (Rsum_skip_last (dim0 stft)
             (fun k0 => Cabs2 (Csum (dim0 stft) (fun m0 =>
                Cmul (Cconj (spec_music_eigenvector stft w f m0 k0))
                     (at3 sv a m0 f)))) HM0).
  rewrite (Csum_ext (dim0 stft) _
             (fun i => Csum (dim0 stft) (fun j =>
                Cmul (Cmul (Cconj (at3 sv a i f))
                           (Csum (dim0 stft - 1)%nat (fun t =>
                              Cmul (spec_music_eigenvector stft w f i t)
                                   (Cconj (spec_music_eigenvector
                                             stft w f j t)))))
                     (at3 sv a j f)))).
  - rewrite projector_energy. apply Cabs_RtoC.
    apply Rsum_nonneg. intros. apply Cabs2_nonneg.
  - intros i Hi. apply Csum_ext. intros j Hj.
    unbix. cbn [music_noise_covar at3]. rewrite Hn2.
    f_equal. f_equal. apply Csum_ext. intros t Ht.
    rewrite !Hvec by exact Hf. reflexivity.
Qed.

(** ** Further properties of the localisation estimators *)

Lemma first_argmax_unique (n : nat) (f : nat -> R) (i j : nat) :
  first_argmax n f i -> first_argmax n f j -> i = j.
Proof.
  intros [Hi [Himax Hifirst]] [Hj [Hjmax Hjfirst]].
  destruct (Nat.lt_trichotomy i j) as [Hlt | [Heq | Hgt]]; [| exact Heq |].
  - specialize (Hjfirst i Hlt). specialize (Himax j Hj). lra.
  - specialize (Hifirst j Hgt). specialize (Hjmax i Hi). lra.
Qed.

Lemma first_argmax_scale (n : nat) (k : R) (f : nat -> R) (i : nat) :
  0 < k -> first_argmax n f i -> first_argmax n (fun a => k * f a) i.
Proof.
  intros Hk [Hi [Hmax Hfirst]]. repeat split.
  - exact Hi.
  - intros a Ha. specialize (Hmax a Ha). nra.
  - intros a Ha. specialize (Hfirst a Ha). nra.
Qed.

Lemma Rsum_zero (n : nat) : Rsum n (fun _ => 0) = 0.
Proof. induction n as [| n IH]; simpl; [reflexivity |]. rewrite IH. ring. Qed.

(** A sum against an indicator picks one term. *)
Lemma Rsum_pick (n x : nat) (g : nat -> R) :
  (x < n)%nat ->
  Rsum n (fun i => if (i =? x)%nat then g i else 0) = g x.
Proof.
  induction n as [| n IH]; intros Hx; [lia |].
  simpl. destruct (Nat.eq_dec x n) as [-> | Hne].
  - rewrite Nat.eqb_refl.
    rewrite (Rsum_ext n _ (fun _ => 0)).
    + rewrite Rsum_zero. ring.
    + intros i Hi. destruct (Nat.eqb_spec i n); [lia | reflexivity].
  - rewrite IH by lia. destruct (Nat.eqb_spec n x); [lia | ring].
Qed.

(** [ml_ssl] with a 2-D mask of the spectrogram's shape: the direction
    returned is the first maximiser of the masked score. *)
Lemma ml_ssl_mask2_score (stft sv : Arr3 C) (compression eps : R)
      (norm : bool) (m : Arr2 R) :
  dim1 sv = dim0 stft -> dim2 sv = dim2 stft -> (0 < dim0 sv)%nat ->
  rows m = dim1 stft -> cols m = dim2 stft ->
  exists i,
    ml_ssl stft sv compression eps norm (Some (Mask2 m)) = Ok (Doa i) /\
    first_argmax (dim0 sv)
      (spec_ml_score (ml_observed stft eps norm) (sv_normalize sv)
                     compression eps (at2 m)) i.
Proof.
  intros HM HF HA Hr Hc.
  destruct (ml_observed_shape stft eps norm) as [HX0 [HX1 HX2]].
  set (X := ml_observed stft eps norm) in *.
  unfold ml_ssl. cbv zeta.
  change (if norm then stft_normalize stft eps else stft) with X.
  destruct (ml_loglike2_score X sv compression eps m)
    as [ssv [delta [ll [H1 [H2 [H3 [Hlen Hll]]]]]]]; try congruence.
  rewrite H1. cbv beta iota delta [bind].
  rewrite H2. cbv beta iota delta [bind].
  rewrite H3. cbv beta iota delta [bind]. rewrite Hlen.
  destruct (dim0 sv) as [| k]; [lia |].
  simpl. eexists. split; [reflexivity |].
  apply (first_argmax_ext _ (at1 ll)); [exact Hll |].
  apply argmax_upto_spec.
Qed.

(** X4. With a mask that keeps a single time-frequency cell, the direction
    returned by [ml_ssl] is the first maximiser of the log-likelihood of
    that cell alone. *)
Theorem ml_ssl_one_cell (stft sv : Arr3 C) (compression eps : R)
        (norm : bool) (t0 f0 : nat) :
  dim1 sv = dim0 stft -> dim2 sv = dim2 stft -> (0 < dim0 sv)%nat ->
  (t0 < dim1 stft)%nat -> (f0 < dim2 stft)%nat ->
  exists i,
    ml_ssl stft sv compression eps norm
           (Some (Mask2 (one_cell_mask (dim1 stft) (dim2 stft) t0 f0)))
    = Ok (Doa i) /\
    first_argmax (dim0 sv)
      (fun a => spec_ml_cell (ml_observed stft eps norm) (sv_normalize sv)
                             compression eps a t0 f0) i.
Proof.
  intros HM HF HA Ht0 Hf0.
  destruct (ml_ssl_mask2_score stft sv compression eps norm
              (one_cell_mask (dim1 stft) (dim2 stft) t0 f0) HM HF HA
              eq_refl eq_refl) as [i [Hi Hmax]].
  exists i. split; [exact Hi |].
  eapply first_argmax_ext; [| exact Hmax].
  intros a Ha. unfold spec_ml_score.
  destruct (ml_observed_shape stft eps norm) as [_ [HX1 HX2]].
  rewrite HX1, HX2.
  rewrite (Rsum_ext (dim1 stft) _
             (fun t => if (t =? t0)%nat
                       then spec_ml_cell (ml_observed stft eps norm)
                              (sv_normalize sv) compression eps a t f0
                       else 0)).
  - apply (Rsum_pick (dim1 stft) t0
             (fun t => spec_ml_cell (ml_observed stft eps norm)
                         (sv_normalize sv) compression eps a t f0) Ht0).
  - intros t Ht. simpl. destruct (Nat.eqb_spec t t0) as [-> | Hne]; simpl.
    + rewrite (Rsum_ext (dim2 stft) _
                 (fun f => if (f =? f0)%nat
                           then spec_ml_cell (ml_observed stft eps norm)
                                  (sv_normalize sv) compression eps a t0 f
                           else 0)).
      * apply (Rsum_pick (dim2 stft) f0
                 (fun f => spec_ml_cell (ml_observed stft eps norm)
                             (sv_normalize sv) compression eps a t0 f) Hf0).
      * intros f Hf. destruct (f =? f0)%nat; ring.
    + rewrite (Rsum_ext (dim2 stft) _ (fun _ => 0)) by (intros; ring).
      apply Rsum_zero.
Qed.

(** X5. Multiplying a 2-D mask by a positive number does not change the
    direction returned by [ml_ssl]. *)
Theorem ml_ssl_mask_scale (stft sv : Arr3 C) (compression eps k : R)
        (norm : bool) (m : Arr2 R) :
  dim1 sv = dim0 stft -> dim2 sv = dim2 stft -> (0 < dim0 sv)%nat ->
  rows m = dim1 stft -> cols m = dim2 stft -> 0 < k ->
  exists i,
    ml_ssl stft sv compression eps norm (Some (Mask2 m)) = Ok (Doa i) /\
    ml_ssl stft sv compression eps norm (Some (Mask2 (scale_mask k m)))
    = Ok (Doa i).
Proof.
  intros HM HF HA Hr Hc Hk.
  destruct (ml_ssl_mask2_score stft sv compression eps norm m HM HF HA Hr Hc)
    as [i [Hi Hmax]].
  destruct (ml_ssl_mask2_score stft sv compression eps norm (scale_mask k m)
              HM HF HA Hr Hc) as [j [Hj Hmax']].
  exists i. split; [exact Hi |]. rewrite Hj. do 2 f_equal.
  apply (first_argmax_unique (dim0 sv)
           (spec_ml_score (ml_observed stft eps norm) (sv_normalize sv)
                          compression eps (at2 (scale_mask k m))));
    [exact Hmax' |].
  apply (first_argmax_scale _ k) in Hmax; [| exact Hk].
  eapply first_argmax_ext; [| exact Hmax].
  intros a Ha. unfold spec_ml_score. simpl.
  rewrite <- Rsum_scal. apply Rsum_ext. intros t Ht.
  rewrite <- Rsum_scal. apply Rsum_ext. intros f Hf. ring.
Qed.

Lemma check_indices_ok (n : nat) (idx : list nat) :
  (forall i, In i idx -> (i < n)%nat) -> check_indices n idx = Ok tt.
Proof.
  intros H. unfold check_indices.
  replace (forallb (fun i => (i <? n)%nat) idx) with true; [reflexivity |].
  symmetry. apply forallb_forall. intros i Hi. apply Nat.ltb_lt. auto.
Qed.

Lemma check_indices_out (n : nat) (idx : list nat) (i : nat) :
  In i idx -> (n <= i)%nat -> check_indices n idx = Raise IndexError.
Proof.
  intros Hin Hi. unfold check_indices.
  destruct (forallb (fun i => (i <? n)%nat) idx) eqn:Hall; [| reflexivity].
  rewrite forallb_forall in Hall. specialize (Hall i Hin).
  apply Nat.ltb_lt in Hall. lia.
Qed.

(** [srp_ssl] on arrays of matching shapes, with as many left as right
    channel indices, all inside the channel axis. *)
Lemma srp_ssl_score (stft sv : Arr3 C) (index_l index_r : list nat)
      (mask : option (Arr2 R)) :
  dim1 sv = dim0 stft -> dim2 sv = dim2 stft -> (0 < dim0 sv)%nat ->
  List.length index_r = List.length index_l ->
  (forall i, In i index_l -> (i < dim0 stft)%nat) ->
  (forall i, In i index_r -> (i < dim0 stft)%nat) ->
  (forall m, mask = Some m -> rows m = dim1 stft /\ cols m = dim2 stft) ->
  exists i,
    srp_ssl stft sv (Some (index_l, index_r)) mask = Ok i /\
    first_argmax (dim0 sv)
      (spec_srp_score stft sv index_l index_r
         (match mask with
          | None => fun _ _ => 1
          | Some m => at2 m
          end)) i.
Proof.
  intros HM HF HA HP Hl Hr Hmask.
  set (m := match mask with
            | None => np_ones (dim1 stft) (dim2 stft)
            | Some m => m
            end).
  assert (Hshape : rows m = dim1 stft /\ cols m = dim2 stft).
  { subst m. destruct mask as [m |]; [apply Hmask; reflexivity |].
    simpl. auto. }
  destruct Hshape as [Hrows Hcols].
  assert (Hw : forall t f,
             at2 m t f = match mask with
                         | None => fun _ _ => 1
                         | Some m => at2 m
                         end t f).
  { intros t f. subst m. destruct mask; reflexivity. }
  unfold srp_ssl. fold m.
  unfold srp_obs_ipd, srp_ora_ipd. simpl dim0. simpl dim1. simpl dim2.
  rewrite HM, !(check_indices_ok _ _ Hl), !(check_indices_ok _ _ Hr).
  rewrite HP, bcast_same. cbv beta iota delta [bind].
  unfold srp_af. simpl dim0. simpl dim1. simpl dim2.
  rewrite bcast_one_l, bcast_same, bcast_one_r, HF, bcast_same.
  cbv beta iota delta [bind].
  unfold srp_sum. simpl dim0. simpl dim1. simpl dim2.
  rewrite bcast_one_r, Hrows, Hcols, !bcast_same.
  cbv beta iota delta [bind]. cbn [len at1].
  destruct (dim0 sv) as [| k]; [lia |].
  simpl np_argmax. eexists. split; [reflexivity |].
  eapply first_argmax_ext; [| apply argmax_upto_spec].
  intros a Ha. unfold spec_srp_score.
  apply Rsum_ext. intros t Ht. apply Rsum_ext. intros f Hf.
  cbn [at3 map3d]. unbix. rewrite Hw. f_equal. f_equal.
  apply Rsum_ext. intros p Hp. unbix. reflexivity.
Qed.

(** X1. With matching shapes, as many left as right channel indices (all
    inside the channel axis) and at least one direction, [srp_ssl] returns
    the first direction that maximises the mask-weighted sum over time and
    frequency of the mean over the pairs of the cosine between the observed
    and the oracle phase differences. *)
Theorem srp_ssl_maximises_score (stft sv : Arr3 C)
        (index_l index_r : list nat) (mask : option (Arr2 R)) :
  dim1 sv = dim0 stft -> dim2 sv = dim2 stft -> (0 < dim0 sv)%nat ->
  List.length index_r = List.length index_l ->
  (0 < List.length index_l)%nat ->
  (forall i, In i index_l -> (i < dim0 stft)%nat) ->
  (forall i, In i index_r -> (i < dim0 stft)%nat) ->
  (forall m, mask = Some m -> rows m = dim1 stft /\ cols m = dim2 stft) ->
  exists i,
    srp_ssl stft sv (Some (index_l, index_r)) mask = Ok i /\
    first_argmax (dim0 sv)
      (spec_srp_score stft sv index_l index_r
         (match mask with
          | None => fun _ _ => 1
          | Some m => at2 m
          end)) i.
Proof.
  intros HM HF HA HP _ Hl Hr Hmask.
  apply srp_ssl_score; assumption.
Qed.

(** X3. A channel index of [srp_pair] outside the channel axis of the
    spectrogram makes [srp_ssl] raise [IndexError]. *)
Theorem srp_ssl_index_out_of_range (stft sv : Arr3 C)
        (index_l index_r : list nat) (mask : option (Arr2 R)) (i : nat) :
  In i index_l \/ In i index_r -> (dim0 stft <= i)%nat ->
  srp_ssl stft sv (Some (index_l, index_r)) mask = Raise IndexError.
Proof.
  intros Hin Hi. unfold srp_ssl, srp_obs_ipd. simpl dim0.
  destruct (forallb (fun j => (j <? dim0 stft)%nat) index_l) eqn:Hall.
  - unfold check_indices at 1. rewrite Hall. cbv beta iota delta [bind].
    destruct Hin as [Hin | Hin].
    + rewrite forallb_forall in Hall. specialize (Hall i Hin).
      apply Nat.ltb_lt in Hall. lia.
    + rewrite (check_indices_out _ _ _ Hin Hi). reflexivity.
  - unfold check_indices at 1. rewrite Hall. reflexivity.
Qed.

Lemma np_angle_scale (k : R) (z : C) :
  0 < k -> np_angle (Cscal k z) = np_angle z.
Proof.
  intros Hk. destruct z as [x y]. unfold np_angle, Cscal. simpl.
  assert (Hq : x <> 0 -> k * y / (k * x) = y / x).
  { intros Hx. field. split; lra. }
  destruct (Rlt_dec 0 x) as [Hx | Hx].
  - destruct (Rlt_dec 0 (k * x)) as [_ | H]; [| exfalso; nra].
    rewrite Hq by lra. reflexivity.
  - destruct (Rlt_dec 0 (k * x)) as [H | _]; [exfalso; nra |].
    destruct (Rlt_dec x 0) as [Hx' | Hx'].
    + destruct (Rlt_dec (k * x) 0) as [_ | H]; [| exfalso; nra].
      rewrite Hq by lra.
      destruct (Rlt_dec y 0) as [Hy | Hy].
      * destruct (Rlt_dec (k * y) 0) as [_ | H]; [reflexivity | exfalso; nra].
      * destruct (Rlt_dec (k * y) 0) as [H | _]; [exfalso; nra | reflexivity].
    + destruct (Rlt_dec (k * x) 0) as [H | _]; [exfalso; nra |].
      destruct (Rlt_dec 0 y) as [Hy | Hy].
      * destruct (Rlt_dec 0 (k * y)) as [_ | H]; [reflexivity | exfalso; nra].
      * destruct (Rlt_dec 0 (k * y)) as [H | _]; [exfalso; nra |].
        destruct (Rlt_dec y 0) as [Hy' | Hy'].
        -- destruct (Rlt_dec (k * y) 0) as [_ | H];
             [reflexivity | exfalso; nra].
        -- destruct (Rlt_dec (k * y) 0) as [H | _];
             [exfalso; nra | reflexivity].
Qed.

(** X2. [srp_ssl] uses the phases only: multiplying the coefficients of the
    spectrogram and of the steering vectors by positive reals, a different
    one for every coefficient, does not change the direction returned. *)
Theorem srp_ssl_magnitude_invariant
        (k k' : nat -> nat -> nat -> R) (stft stft' sv sv' : Arr3 C)
        (index_l index_r : list nat) (mask : option (Arr2 R)) :
  rescaled k stft stft' -> rescaled k' sv sv' ->
  dim1 sv = dim0 stft -> dim2 sv = dim2 stft -> (0 < dim0 sv)%nat ->
  List.length index_r = List.length index_l ->
  (forall i, In i index_l -> (i < dim0 stft)%nat) ->
  (forall i, In i index_r -> (i < dim0 stft)%nat) ->
  (forall m, mask = Some m -> rows m = dim1 stft /\ cols m = dim2 stft) ->
  exists i,
    srp_ssl stft sv (Some (index_l, index_r)) mask = Ok i /\
    srp_ssl stft' sv' (Some (index_l, index_r)) mask = Ok i.
Proof.
  intros [Hs0 [Hs1 [Hs2 Hs]]] [Hv0 [Hv1 [Hv2 Hv]]] HM HF HA HP Hl Hr Hmask.
  destruct (srp_ssl_score stft sv index_l index_r mask HM HF HA HP Hl Hr
              Hmask) as [i [Hi Hmax]].
  destruct (srp_ssl_score stft' sv' index_l index_r mask) as [j [Hj Hmax']];
    try congruence.
  { intros x Hx. rewrite Hs0. auto. }
  { intros x Hx. rewrite Hs0. auto. }
  { intros m Hm. rewrite Hs1, Hs2. auto. }
  exists i. split; [exact Hi |]. rewrite Hj. f_equal.
  rewrite Hv0 in Hmax'.
  apply (first_argmax_unique _ _ _ _ Hmax').
  eapply first_argmax_ext; [| exact Hmax].
  intros a Ha. unfold spec_srp_score. rewrite Hs1, Hs2.
  assert (Hin : forall (idx : list nat) p,
             (forall x, In x idx -> (x < dim0 stft)%nat) ->
             (p < List.length idx)%nat -> (nth p idx O < dim0 stft)%nat).
  { intros idx p Hidx Hp. apply Hidx. apply nth_In. exact Hp. }
  apply Rsum_ext. intros t Ht. apply Rsum_ext. intros f Hf.
  f_equal. f_equal. apply Rsum_ext. intros p Hp.
  pose proof (Hin index_l p Hl Hp) as Hpl.
  pose proof (Hin index_r p Hr ltac:(lia)) as Hpr.
  destruct (Hs _ _ _ Hpl Ht Hf) as [Hk1 ->].
  destruct (Hs _ _ _ Hpr Ht Hf) as [Hk2 ->].
  destruct (Hv a (nth p index_l O) f Ha ltac:(lia) ltac:(lia)) as [Hk3 ->].
  destruct (Hv a (nth p index_r O) f Ha ltac:(lia) ltac:(lia)) as [Hk4 ->].
  rewrite !np_angle_scale by assumption. reflexivity.
Qed.

Lemma ml_ssv_cor_cases (sv X : Arr3 C) :
  ml_ssv_cor sv X = Raise ValueError \/
  exists x, ml_ssv_cor sv X = Ok x /\ dim0 x = dim0 sv.
Proof.
  unfold ml_ssv_cor.
  destruct (bcast_cases (dim1 sv) (dim0 X)) as [-> | [Mb ->]];
    [left; reflexivity |].
  destruct (bcast_cases (dim2 sv) (dim2 X)) as [-> | [Fb ->]];
    [left; reflexivity |].
  right. eexists. split; reflexivity.
Qed.

Lemma ml_delta_cases (h : Arr2 R) (x : Arr3 R) (eps : R) :
  ml_delta h x eps = Raise ValueError \/
  exists d, ml_delta h x eps = Ok d /\ dim0 d = dim0 x.
Proof.
  unfold ml_delta. rewrite bcast_one_l. cbv beta iota delta [bind].
  destruct (bcast_cases (rows h) (dim1 x)) as [-> | [Tb ->]];
    [left; reflexivity |].
  destruct (bcast_cases (cols h) (dim2 x)) as [-> | [Fb ->]];
    [left; reflexivity |].
  right. eexists. split; reflexivity.
Qed.

Lemma ml_loglike2_cases (m : Arr2 R) (x : Arr3 R) :
  ml_loglike2 m x = Raise ValueError \/
  exists l, ml_loglike2 m x = Ok l /\ len l = dim0 x.
Proof.
  unfold ml_loglike2. rewrite bcast_one_l. cbv beta iota delta [bind].
  destruct (bcast_cases (rows m) (dim1 x)) as [-> | [Tb ->]];
    [left; reflexivity |].
  destruct (bcast_cases (cols m) (dim2 x)) as [-> | [Fb ->]];
    [left; reflexivity |].
  right. eexists. split; reflexivity.
Qed.

Lemma ml_loglike3_cases (m : Arr3 R) (x : Arr3 R) :
  ml_loglike3 m x = Raise ValueError \/
  exists l, ml_loglike3 m x = Ok l /\ cols l = dim0 x.
Proof.
  unfold ml_loglike3.
  destruct (bcast_cases (dim1 m) (dim1 x)) as [-> | [Tb ->]];
    [left; reflexivity |].
  destruct (bcast_cases (dim2 m) (dim2 x)) as [-> | [Fb ->]];
    [left; reflexivity |].
  right. eexists. split; reflexivity.
Qed.

Lemma music_obs_cases (stft : Arr3 C) (m : Arr2 R) :
  music_obs stft m = Raise ValueError \/ exists obs, music_obs stft m = Ok obs.
Proof.
  unfold music_obs.
  destruct (bcast_cases (dim1 stft) (rows m)) as [-> | [Tb ->]];
    [left; reflexivity |].
  destruct (bcast_cases (dim2 stft) (cols m)) as [-> | [Fb ->]];
    [left; reflexivity |].
  right. eexists. reflexivity.
Qed.

Lemma music_denorm_cases (sv nc : Arr3 C) :
  music_denorm sv nc = Raise ValueError \/
  exists d, music_denorm sv nc = Ok d /\ cols d = dim0 sv.
Proof.
  unfold music_denorm.
  destruct (bcast_cases (dim2 sv) (dim0 nc)) as [-> | [Fb ->]];
    [left; reflexivity |].
  rewrite bcast_one_r. cbv beta iota delta [bind].
  destruct (bcast_cases (dim1 sv) (dim1 nc)) as [-> | [Ma ->]];
    [left; reflexivity |].
  destruct (bcast_cases (dim2 nc) (dim1 sv)) as [-> | [Mb ->]];
    [left; reflexivity |].
  right. eexists. split; reflexivity.
Qed.

(** X6. With an empty bank of directions (no candidate direction) the ML and
    MUSIC estimators raise [ValueError], whatever the other arguments are:
    there is nothing to take the arg-max or arg-min of. *)
Theorem ssl_empty_bank_raises (stft sv : Arr3 C) (compression eps : R)
        (norm : bool) (ml_mask : option mask_arg) (mask : option (Arr2 R)) :
  dim0 sv = O ->
  ml_ssl stft sv compression eps norm ml_mask = Raise ValueError /\
  music_ssl stft sv mask = Raise ValueError.
Proof.
  intros HA. split.
  - unfold ml_ssl. cbv zeta.
    apply bind_raise_value.
    { destruct (ml_ssv_cor_cases (sv_normalize sv)
                  (if norm then stft_normalize stft eps else stft))
        as [H | [x [H _]]]; [left | right; exists x]; exact H. }
    intros x Hx.
    destruct (ml_ssv_cor_cases (sv_normalize sv)
                (if norm then stft_normalize stft eps else stft))
      as [H | [x' [H Hx0]]]; [congruence |].
    assert (x' = x) by congruence. subst x'. simpl in Hx0.
    apply bind_raise_value.
    { destruct (ml_delta_cases
                  (ml_ssh_cor (if norm then stft_normalize stft eps else stft))
                  x eps) as [Hd | [d [Hd _]]];
        [left | right; exists d]; exact Hd. }
    intros d Hd.
    destruct (ml_delta_cases
                (ml_ssh_cor (if norm then stft_normalize stft eps else stft))
                x eps) as [Hd' | [d' [Hd' Hd0]]]; [congruence |].
    assert (d' = d) by congruence. subst d'.
    assert (Htfl : dim0 (ml_tf_loglike d compression eps) = O).
    { simpl. congruence. }
    destruct (match ml_mask with
              | Some m => m
              | None => Mask2 (np_ones (dim1 stft) (dim2 stft))
              end) as [m | m].
    + destruct (ml_loglike2_cases m (ml_tf_loglike d compression eps))
        as [-> | [l [-> Hl]]]; [reflexivity |].
      cbv beta iota delta [bind]. rewrite Hl, Htfl. reflexivity.
    + destruct (ml_loglike3_cases m (ml_tf_loglike d compression eps))
        as [-> | [l [-> Hl]]]; [reflexivity |].
      cbv beta iota delta [bind]. unfold argmax_last.
      rewrite Hl, Htfl. reflexivity.
  - unfold music_ssl.
    set (m := match mask with None => _ | Some m => m end).
    destruct (music_obs_cases stft m) as [-> | [obs ->]]; [reflexivity |].
    cbv beta iota delta [bind].
    destruct (music_denorm_cases sv
                (music_noise_covar
                   (music_noise_sub (music_obs_covar obs (dim1 stft)))))
      as [-> | [d [-> Hd]]]; [reflexivity |].
    cbv beta iota delta [bind]. unfold music_score. simpl len.
    rewrite Hd, HA. reflexivity.
Qed.

Lemma argmin_upto_const (c : R) (k : nat) :
  argmin_upto (fun _ => c) k = O.
Proof.
  induction k as [| k IH]; simpl; [reflexivity |].
  rewrite IH. destruct (Rlt_dec c c); [lra | reflexivity].
Qed.

Lemma Cabs_zero : Cabs C0 = 0.
Proof.
  unfold Cabs, Cabs2, C0. simpl.
  replace (0 * 0 + 0 * 0) with 0 by ring. apply sqrt_0.
Qed.

(** X7. With a single channel the noise subspace of [music_ssl] is empty, every
    direction has the score 0, and the index 0 is returned whatever the
    spectrogram and the steering vectors contain. *)
Theorem music_ssl_single_channel (stft sv : Arr3 C) (mask : option (Arr2 R)) :
  dim0 stft = 1%nat -> dim1 sv = 1%nat -> dim2 sv = dim2 stft ->
  (0 < dim0 sv)%nat ->
  (forall m, mask = Some m -> rows m = dim1 stft /\ cols m = dim2 stft) ->
  music_ssl stft sv mask = Ok O.
Proof.
  intros HM HM' HF HA Hmask.
  set (m := match mask with
            | None => np_ones (dim1 stft) (dim2 stft)
            | Some m => m
            end).
  assert (Hshape : rows m = dim1 stft /\ cols m = dim2 stft).
  { subst m. destruct mask as [m |]; [apply Hmask; reflexivity |].
    simpl. auto. }
  destruct Hshape as [Hr Hc].
  unfold music_ssl. fold m.
  unfold music_obs. rewrite Hr, Hc, !bcast_same.
  cbv beta iota delta [bind].
  unfold music_denorm. simpl dim0. simpl dim1. simpl dim2.
  rewrite HM, HM', HF, !bcast_same, bcast_one_r.
  cbv beta iota delta [bind].
  unfold np_argmin, music_score. cbn [len at1 rows cols at2].
  destruct (dim0 sv) as [| k]; [lia |].
  f_equal.
  rewrite (argmin_upto_ext _ (fun _ => 0)); [apply argmin_upto_const |].
  intros a Ha.
  rewrite (Rsum_ext _ _ (fun _ => 0)); [apply Rsum_zero |].
  intros f Hf. simpl.
  match goal with
  | |- Cabs ?z = 0 => replace z with C0; [apply Cabs_zero |]
  end.
  csolve.
Qed.

Lemma unit_conj (c : C) : Cabs2 c = 1 -> Cmul (Cconj c) c = C1.
Proof. intros H. rewrite Cmul_conj, H. reflexivity. Qed.

(** X8. [music_ssl] is blind to the phase of the steering vectors: multiplying
    each steering vector by a complex number of modulus 1 (one for every
    direction and frequency bin) does not change what the call returns. *)
Theorem music_ssl_phase_invariant (c : nat -> nat -> C)
        (stft sv sv' : Arr3 C) (mask : option (Arr2 R)) :
  scaled_bank c sv sv' ->
  (forall a f, (a < dim0 sv)%nat -> (f < dim2 sv)%nat -> Cabs2 (c a f) = 1) ->
  music_ssl stft sv' mask = music_ssl stft sv mask.
Proof.
  intros [H0 [H1 [H2 Hsc]]] Hunit. unfold music_ssl.
  set (m := match mask with None => _ | Some m => m end).
  destruct (music_obs stft m) as [obs |e]; [| reflexivity].
  cbv beta iota delta [bind].
  set (nc := music_noise_covar _).
  unfold music_denorm. rewrite H0, H1, H2.
  destruct (bcast (dim2 sv) (dim0 nc)) as [Fb |e] eqn:HFb; [| reflexivity].
  cbv beta iota delta [bind]. rewrite bcast_one_r.
  cbv beta iota delta [bind].
  destruct (bcast (dim1 sv) (dim1 nc)) as [Ma |e] eqn:HMa; [| reflexivity].
  cbv beta iota delta [bind].
  destruct (bcast (dim2 nc) (dim1 sv)) as [Mb |e] eqn:HMb; [| reflexivity].
  cbv beta iota delta [bind].
  unfold np_argmin, music_score. cbn [len at1 rows cols at2].
  destruct (dim0 sv) as [| k] eqn:HA; [reflexivity |].
  f_equal. apply argmin_upto_ext. intros a Ha.
  apply Rsum_ext. intros f Hf. f_equal.
  destruct (bix_lt _ _ _ f HFb Hf) as [Hf' _].
  apply Csum_ext. intros i Hi.
  destruct (bix_lt _ _ _ i HMa Hi) as [Hi' _].
  apply Csum_ext. intros j Hj.
  destruct (bix_lt _ _ _ j HMb Hj) as [_ Hj'].
  rewrite !Hsc by lia.
  rewrite Cconj_mul.
  set (u := c a (bix (dim2 sv) f)).
  assert (Hu : Cmul (Cconj u) u = C1).
  { apply unit_conj. apply Hunit; lia. }
  match goal with
  | |- Cmul (Cmul (Cmul (Cconj u) ?x) ?y) (Cmul u ?z) = _ =>
      transitivity (Cmul (Cmul (Cconj u) u) (Cmul (Cmul x y) z)); [ring |]
  end.
  rewrite Hu. ring.
Qed.

(** ** Further properties of AuxIVA *)

Lemma auxiva_update_cases (N T : nat) (Gr : nat -> nat -> R)
      (X : nat -> nat -> nat -> C) (f n : nat) (W : nat -> nat -> nat -> C) :
  auxiva_update N T Gr X f n W = Raise LinAlgError \/
  exists W', auxiva_update N T Gr X f n W = Ok W'.
Proof.
  unfold auxiva_update, np_linalg_solve.
  destruct (Ceq_dec _ C0); [left | right; eexists]; reflexivity.
Qed.

(** A loop whose rounds raise nothing but [e] and whose round [k] always
    raises [e] ends with [e] as soon as it has more than [k] rounds. *)
Lemma for_range_fails_at {S : Type} (body : nat -> S -> result S)
      (e : exn) (k : nat) :
  (forall s, body k s = Raise e) ->
  (forall i s, body i s = Raise e \/ exists s', body i s = Ok s') ->
  forall n s, (k < n)%nat -> for_range n body s = Raise e.
Proof.
  intros Hk Hall n. induction n as [| n IH]; intros s Hlt; [lia |].
  simpl. destruct (Nat.eq_dec k n) as [<- | Hne].
  - assert (Hpre : forall m s0, for_range m body s0 = Raise e \/
                                exists s', for_range m body s0 = Ok s').
    { induction m as [| m IHm]; intros s0; simpl; [right; eauto |].
      destruct (IHm s0) as [-> | [s' ->]]; [left; reflexivity |].
      simpl. apply Hall. }
    destruct (Hpre k s) as [-> | [s' ->]]; [reflexivity |].
    simpl. apply Hk.
  - rewrite IH by lia. reflexivity.
Qed.

Lemma for_range_cases {S : Type} (body : nat -> S -> result S) (e : exn) :
  (forall i s, body i s = Raise e \/ exists s', body i s = Ok s') ->
  forall n s, for_range n body s = Raise e \/
              exists s', for_range n body s = Ok s'.
Proof.
  intros Hall n. induction n as [| n IH]; intros s; simpl; [right; eauto |].
  destruct (IH s) as [-> | [s' ->]]; [left; reflexivity |].
  simpl. apply Hall.
Qed.

Lemma Cdet_zero_row (k : nat) (A : matrix) :
  (forall j, (j < S k)%nat -> A O j = C0) -> Cdet (S k) A = C0.
Proof.
  intros H. cbn [Cdet].
  rewrite (Csum_ext (S k) _ (fun _ => C0)); [apply Csum_zero |].
  intros j Hj. rewrite (H j Hj). destruct (Nat.even j); csolve.
Qed.

(** X9. A frequency bin in which every channel is silent in every frame makes
    the first epoch fail: the weighted covariance of that bin is the zero
    matrix, the linear solve raises, and so does [auxiva]. *)
Theorem auxiva_silent_bin_fails (X : Arr3 C) (epochs : Z) (f0 : nat) :
  (1 <= epochs)%Z -> (1 <= dim0 X)%nat -> (1 <= dim1 X)%nat ->
  (f0 < dim2 X)%nat ->
  (forall n t, (n < dim0 X)%nat -> (t < dim1 X)%nat -> at3 X n t f0 = C0) ->
  auxiva X epochs = Raise LinAlgError.
Proof.
  intros He HN HT Hf0 Hzero. unfold auxiva.
  destruct (Nat.eqb_spec (dim2 X) 0) as [H0 | _]; [lia |].
  set (Xt := fun f t n => at3 X n t f).
  set (N := dim0 X) in *. set (T := dim1 X) in *. set (F := dim2 X) in *.
  assert (Hupd : forall Gr W,
             auxiva_update N T Gr Xt f0 0 W = Raise LinAlgError).
  { intros Gr W. unfold auxiva_update.
    rewrite np_linalg_solve_singular; [reflexivity |].
    destruct N as [| k]; [lia |].
    apply Cdet_zero_row. intros j Hj. unfold auxiva_WV.
    rewrite (Csum_ext (S k) _ (fun _ => C0)); [apply Csum_zero |].
    intros i Hi. unfold auxiva_V.
    rewrite (Csum_ext T _ (fun _ => C0)).
    - rewrite Csum_zero. csolve.
    - intros t Ht. unfold Xt. rewrite !Hzero by lia. csolve. }
  assert (Hbin : forall Gr W,
             for_range N (auxiva_update N T Gr Xt f0) W = Raise LinAlgError).
  { intros Gr W.
    apply (for_range_fails_at _ LinAlgError 0%nat); [apply Hupd | | lia].
    intros i s. apply auxiva_update_cases. }
  assert (Hsweep : forall Gr W,
             auxiva_sweep N T F Gr Xt W = Raise LinAlgError).
  { intros Gr W. unfold auxiva_sweep.
    apply (for_range_fails_at _ LinAlgError f0); [apply Hbin | | exact Hf0].
    intros i s. apply for_range_cases. intros. apply auxiva_update_cases. }
  rewrite (for_range_fails_at (fun _ => auxiva_epoch N T F Xt)
             LinAlgError 0%nat).
  - reflexivity.
  - intros st. unfold auxiva_epoch. rewrite Hsweep. reflexivity.
  - intros i st. unfold auxiva_epoch.
    destruct (for_range_cases
                (fun f W => for_range N
                   (auxiva_update N T (auxiva_Gr (auxiva_R F (snd st))) Xt f) W)
                LinAlgError
                ltac:(intros; apply for_range_cases; intros;
                      apply auxiva_update_cases) F (fst st))
      as [Hr | [W' Hr]]; unfold auxiva_sweep; rewrite Hr;
      [left | right; eexists]; reflexivity.
  - lia.
Qed.

(** One update of bin [f] leaves the demixing matrices of the other bins
    as they are, and its result in bin [f] depends on the matrix of bin
    [f] only. *)
Lemma auxiva_update_bin (N T : nat) (Gr : nat -> nat -> R)
      (X : nat -> nat -> nat -> C) (f n : nat)
      (W1 W2 : nat -> nat -> nat -> C) :
  W1 f = W2 f ->
  match auxiva_update N T Gr X f n W1, auxiva_update N T Gr X f n W2 with
  | Ok W1', Ok W2' =>
      W1' f = W2' f /\
      (forall f', f' <> f -> W1' f' = W1 f') /\
      (forall f', f' <> f -> W2' f' = W2 f')
  | Raise e1, Raise e2 => e1 = e2
  | _, _ => False
  end.
Proof.
  intros Hf. unfold auxiva_update. rewrite Hf.
  destruct (np_linalg_solve N _ (eye_row n)) as [w |e]; simpl;
    [| reflexivity].
  assert (Hother : forall (W : nat -> nat -> nat -> C) col f',
             f' <> f -> set_column W f n col f' = W f').
  { intros W col f' Hne. unfold set_column.
    apply functional_extensionality. intros i.
    apply functional_extensionality. intros n'.
    destruct (Nat.eqb_spec f' f); [contradiction | reflexivity]. }
  split; [| split; intros; apply Hother; assumption].
  unfold set_column.
  apply functional_extensionality. intros i.
  apply functional_extensionality. intros n'.
  rewrite Hf. reflexivity.
Qed.

Lemma auxiva_bin_loop (N T : nat) (Gr : nat -> nat -> R)
      (X : nat -> nat -> nat -> C) (f : nat) (k : nat)
      (W1 W2 : nat -> nat -> nat -> C) :
  W1 f = W2 f ->
  match for_range k (auxiva_update N T Gr X f) W1,
        for_range k (auxiva_update N T Gr X f) W2 with
  | Ok W1', Ok W2' =>
      W1' f = W2' f /\
      (forall f', f' <> f -> W1' f' = W1 f') /\
      (forall f', f' <> f -> W2' f' = W2 f')
  | Raise e1, Raise e2 => e1 = e2
  | _, _ => False
  end.
Proof.
  intros Hf. induction k as [| k IH]; simpl; [auto |].
  destruct (for_range k (auxiva_update N T Gr X f) W1) as [A1 |e1],
    (for_range k (auxiva_update N T Gr X f) W2) as [A2 |e2]; simpl;
    try contradiction; [| exact IH].
  destruct IH as [HA [H1 H2]].
  pose proof (auxiva_update_bin N T Gr X f k A1 A2 HA) as Hupd.
  destruct (auxiva_update N T Gr X f k A1) as [B1 |e1],
    (auxiva_update N T Gr X f k A2) as [B2 |e2]; try contradiction;
    [| exact Hupd].
  destruct Hupd as [HB [HB1 HB2]]. split; [exact HB |].
  split; intros f' Hne.
  - rewrite HB1 by exact Hne. apply H1. exact Hne.
  - rewrite HB2 by exact Hne. apply H2. exact Hne.
Qed.

(** X10. The frequency bins are separated independently within an epoch: when
    the sweep over all bins succeeds, the demixing matrix it leaves in bin
    [f] is the one obtained by running the updates of bin [f] alone on the
    matrices the sweep started from; bins beyond the last one are left
    untouched. *)
Theorem auxiva_sweep_bins_independent (N T F : nat) (Gr : nat -> nat -> R)
        (X W W' : nat -> nat -> nat -> C) :
  auxiva_sweep N T F Gr X W = Ok W' ->
  (forall f, (f < F)%nat ->
     exists Wf, for_range N (auxiva_update N T Gr X f) W = Ok Wf /\
                W' f = Wf f) /\
  (forall f, (F <= f)%nat -> W' f = W f).
Proof.
  unfold auxiva_sweep. revert W'.
  induction F as [| F IH]; intros W' Hrun; simpl in Hrun.
  - injection Hrun as <-. split; [intros f Hf; lia | reflexivity].
  - destruct (for_range F
                (fun f W0 => for_range N (auxiva_update N T Gr X f) W0) W)
      as [W1 |e] eqn:HW1; simpl in Hrun; [| discriminate].
    destruct (IH W1 eq_refl) as [IHin IHout].
    pose proof (auxiva_bin_loop N T Gr X F N W1 W (IHout F (le_n F))) as Hloop.
    rewrite Hrun in Hloop.
    destruct (for_range N (auxiva_update N T Gr X F) W) as [WF |e] eqn:HWF;
      [| contradiction].
    destruct Hloop as [Heq [Hother _]].
    split.
    + intros f Hf. destruct (Nat.eq_dec f F) as [-> | Hne].
      * exists WF. split; [exact HWF | exact Heq].
      * destruct (IHin f ltac:(lia)) as [Wf [HWf Hf1]].
        exists Wf. split; [exact HWf |].
        rewrite Hother by exact Hne. exact Hf1.
    + intros f Hf. rewrite Hother by lia. apply IHout. lia.
Qed.

(** ** Further properties of the oracle masks *)

Lemma np_stack_entries (a : Arr2 R) (l' : list (Arr2 R)) :
  (forall m, In m l' -> rows m = rows a /\ cols m = cols a) ->
  np_stack (a :: l')
  = Ok (mkArr3 (S (List.length l')) (rows a) (cols a)
               (fun s i j => at2 (nth s (a :: l') a) i j)).
Proof.
  intros Hshape. unfold np_stack.
  replace (forallb (fun b => (rows b =? rows a)%nat
                             && (cols b =? cols a)%nat) l') with true;
    [reflexivity |].
  symmetry. apply forallb_forall. intros b Hb.
  destruct (Hshape b Hb) as [-> ->]. rewrite !Nat.eqb_refl. reflexivity.
Qed.

(** X12. For the mask type ["ibm"] the target that gets a time-frequency cell
    is one of largest magnitude in that cell, and among several of largest
    magnitude the earliest in the list. *)
Theorem compute_mask_ibm_dominant (mixture : Arr2 C)
        (targets_list : list (Arr2 C)) :
  targets_list <> [] ->
  (forall m, In m targets_list ->
             rows m = rows mixture /\ cols m = cols mixture) ->
  exists l,
    compute_mask mixture targets_list "ibm" = Ok (BoolMasks l) /\
    forall i j, (i < rows mixture)%nat -> (j < cols mixture)%nat ->
      exists s,
        at2 (nth s l (mkArr2 O O (fun _ _ => false))) i j = true /\
        first_argmax (List.length targets_list)
          (fun k => cmat_abs (at2 (nth k targets_list (const2 O O C0)) i j))
          s.
Proof.
  intros Hne Hshape.
  destruct targets_list as [| a l'] eqn:Htl; [contradiction |].
  unfold compute_mask. simpl String.eqb. cbv iota.
  cbn [map]. rewrite np_stack_entries.
  2:{ intros m Hm. apply in_map_iff in Hm. destruct Hm as [m' [<- Hm']].
      simpl. destruct (Hshape a (or_introl eq_refl)) as [-> ->].
      apply Hshape. right. exact Hm'. }
  cbv beta iota delta [bind]. unfold argmax_first. cbn [dim0 dim1 dim2 at3].
  rewrite length_map. cbv beta iota delta [bind].
  eexists. split; [reflexivity |].
  intros i j Hi Hj.
  set (g := fun s => at2 (nth s (map2d cmat_abs a :: map (map2d cmat_abs) l')
                              (map2d cmat_abs a)) i j).
  set (best := argmax_upto g (List.length l')).
  pose proof (argmax_upto_spec g (List.length l')) as Hbest. fold best in Hbest.
  exists best. split.
  - rewrite (nth_indep _ _ (map2d (fun m => (m =? 0)%nat)
                               (mkArr2 (rows (map2d cmat_abs a))
                                  (cols (map2d cmat_abs a))
                                  (fun i j => argmax_upto
                                     (fun s => at2 (nth s
                                        (map2d cmat_abs a
                                         :: map (map2d cmat_abs) l')
                                        (map2d cmat_abs a)) i j)
                                     (List.length l')))))
      by (rewrite length_map, length_seq; simpl; apply Hbest).
    rewrite (map_nth (fun s => map2d (fun m => (m =? s)%nat) _)
               (seq 0 (List.length (a :: l'))) O best).
    rewrite seq_nth by (simpl; apply Hbest).
    simpl. fold g. fold best. apply Nat.eqb_refl.
  - eapply first_argmax_ext; [| exact Hbest].
    intros k Hk. unfold g.
    change (map2d cmat_abs a :: map (map2d cmat_abs) l')
      with (map (map2d cmat_abs) (a :: l')).
    rewrite (map_nth (map2d cmat_abs) (a :: l') a k). cbn [at2 map2d].
    f_equal. f_equal. apply nth_indep. exact Hk.
Qed.

(** X15. With an empty list of targets the mask type ["ibm"] raises
    [ValueError] (there is nothing to stack), while every other mask type
    returns an empty list of masks. *)
Theorem compute_mask_no_target (mixture : Arr2 C) (mask_type : string) :
  compute_mask mixture [] "ibm" = Raise ValueError /\
  (mask_type <> "ibm"%string ->
   compute_mask mixture [] mask_type = Ok (RealMasks [])).
Proof.
  split; [reflexivity |].
  intros Hne. unfold compute_mask.
  destruct (String.eqb_spec mask_type "ibm"); [contradiction |].
  destruct (String.eqb mask_type "irm"), (String.eqb mask_type "psm");
    reflexivity.
Qed.

Lemma bop2_same_shape {A B D : Type} (op : A -> B -> D)
      (x : Arr2 A) (y : Arr2 B) :
  rows y = rows x -> cols y = cols x ->
  bop2 op x y
  = Ok (mkArr2 (rows x) (cols x)
          (fun i j => op (at2 x (bix (rows x) i) (bix (cols x) j))
                         (at2 y (bix (rows y) i) (bix (cols y) j)))).
Proof.
  intros Hr Hc. unfold bop2. rewrite Hr, Hc, !bcast_same. reflexivity.
Qed.

Lemma py_sum_same_shape (l : list (Arr2 R)) (acc : Arr2 R) :
  (forall a, In a l -> rows a = rows acc /\ cols a = cols acc) ->
  exists tot,
    py_sum acc l = Ok tot /\ rows tot = rows acc /\ cols tot = cols acc /\
    forall i j, (i < rows acc)%nat -> (j < cols acc)%nat ->
      at2 tot i j = at2 acc i j + Rlist_sum (map (fun a => at2 a i j) l).
Proof.
  revert acc. induction l as [| a l IH]; intros acc Hshape; simpl.
  - exists acc. repeat split. intros. ring.
  - destruct (Hshape a (or_introl eq_refl)) as [Hr Hc].
    rewrite (bop2_same_shape Rplus acc a Hr Hc).
    cbv beta iota delta [bind].
    destruct (IH (mkArr2 (rows acc) (cols acc)
                    (fun i j => at2 acc (bix (rows acc) i) (bix (cols acc) j)
                                + at2 a (bix (rows a) i) (bix (cols a) j))))
      as [tot [Htot [Hrt [Hct Hent]]]].
    { intros b Hb. simpl. apply Hshape. right. exact Hb. }
    exists tot. split; [exact Htot |]. simpl in Hrt, Hct, Hent.
    split; [exact Hrt |]. split; [exact Hct |].
    intros i j Hi Hj. rewrite Hent by assumption.
    rewrite Hr, Hc. unbix. ring.
Qed.

Lemma py_sum_from_zero (a : Arr2 R) (l : list (Arr2 R)) :
  (forall b, In b l -> rows b = rows a /\ cols b = cols a) ->
  exists tot,
    py_sum (mkArr2 1 1 (fun _ _ => 0)) (a :: l) = Ok tot /\
    rows tot = rows a /\ cols tot = cols a /\
    forall i j, (i < rows a)%nat -> (j < cols a)%nat ->
      at2 tot i j = Rlist_sum (map (fun b => at2 b i j) (a :: l)).
Proof.
  intros Hshape. cbn [py_sum]. unfold bop2. cbn [rows cols at2].
  rewrite !bcast_one_l. cbv beta iota delta [bind].
  destruct (py_sum_same_shape l
              (mkArr2 (rows a) (cols a)
                 (fun i j => 0 + at2 a (bix (rows a) i) (bix (cols a) j))))
    as [tot [Htot [Hrt [Hct Hent]]]].
  { intros b Hb. simpl. apply Hshape. exact Hb. }
  exists tot. split; [exact Htot |]. simpl in Hrt, Hct, Hent.
  split; [exact Hrt |]. split; [exact Hct |].
  intros i j Hi Hj. rewrite Hent by assumption. unbix. simpl. ring.
Qed.

Lemma mapM_ok {A B : Type} (g : A -> result B) (P : A -> B -> Prop)
      (l : list A) :
  (forall a, In a l -> exists b, g a = Ok b /\ P a b) ->
  exists l', mapM g l = Ok l' /\ Forall2 P l l'.
Proof.
  induction l as [| a l IH]; intros H; simpl.
  - exists []. split; [reflexivity | constructor].
  - destruct (H a (or_introl eq_refl)) as [b [Hb HP]]. rewrite Hb.
    destruct (IH (fun x Hx => H x (or_intror Hx))) as [l' [Hl' HF]].
    rewrite Hl'. exists (b :: l'). split; [reflexivity |].
    constructor; assumption.
Qed.

Lemma Rlist_sum_nonneg (l : list R) :
  Forall (fun x => 0 <= x) l -> 0 <= Rlist_sum l.
Proof.
  induction 1 as [| x l Hx _ IH]; simpl; lra.
Qed.

Lemma Rlist_sum_bound (l : list R) (x : R) :
  Forall (fun y => 0 <= y) l -> In x l -> x <= Rlist_sum l.
Proof.
  induction 1 as [| y l Hy Hl IH]; intros Hin; [contradiction |].
  simpl. pose proof (Rlist_sum_nonneg l Hl).
  destruct Hin as [-> | Hin]; [lra |]. specialize (IH Hin). lra.
Qed.

Lemma Rlist_sum_div {A B : Type} (f : A -> R) (g : B -> R) (d : R)
      (ts : list A) (ms : list B) :
  Forall2 (fun t m => g m = f t / d) ts ms ->
  Rlist_sum (map g ms) = Rlist_sum (map f ts) / d.
Proof.
  induction 1 as [| t m ts ms Hm _ IH]; simpl.
  - unfold Rdiv. ring.
  - rewrite IH, Hm. unfold Rdiv. ring.
Qed.

Lemma Forall2_in_r {A B : Type} (P : A -> B -> Prop)
      (l : list A) (l' : list B) (b : B) :
  Forall2 P l l' -> In b l' -> exists a, In a l /\ P a b.
Proof.
  induction 1 as [| x y l l' Hxy _ IH]; intros Hin; [contradiction |].
  destruct Hin as [<- | Hin].
  - exists x. split; [left; reflexivity | exact Hxy].
  - destruct (IH Hin) as [a [Ha HP]]. exists a. split; [right |]; assumption.
Qed.

(** X13. For the mask type ["irm"], with at least one target, all targets of
    the mixture's shape, a non-negative magnitude and a positive [EPSILON]:
    one mask per target is returned, every mask value lies in [0, 1), and
    in every cell the masks add up to [S / (S + EPSILON)], where [S] is the
    sum of the targets' magnitudes, hence to less than 1. *)
Theorem compute_mask_irm_partition (mixture : Arr2 C)
        (targets_list : list (Arr2 C)) :
  0 < EPSILON -> (forall z, 0 <= cmat_abs z) ->
  targets_list <> [] ->
  (forall m, In m targets_list ->
             rows m = rows mixture /\ cols m = cols mixture) ->
  exists l,
    compute_mask mixture targets_list "irm" = Ok (RealMasks l) /\
    List.length l = List.length targets_list /\
    forall i j, (i < rows mixture)%nat -> (j < cols mixture)%nat ->
      let S := Rlist_sum (map (fun t => cmat_abs (at2 t i j)) targets_list) in
      Forall (fun m => 0 <= at2 m i j < 1) l /\
      Rlist_sum (map (fun m => at2 m i j) l) = S / (S + EPSILON) /\
      Rlist_sum (map (fun m => at2 m i j) l) < 1.
Proof.
  intros Heps Habs Hne Hshape.
  assert (Hcons : exists a l', targets_list = a :: l').
  { destruct targets_list as [| a l']; [contradiction | eauto]. }
  destruct Hcons as [a [l' Htl]].
  assert (Ha : rows a = rows mixture /\ cols a = cols mixture).
  { apply Hshape. rewrite Htl. left. reflexivity. }
  destruct Ha as [Har Hac].
  unfold compute_mask. simpl String.eqb. cbv iota.
  replace (map (map2d cmat_abs) targets_list)
    with (map2d cmat_abs a :: map (map2d cmat_abs) l')
    by (rewrite Htl; reflexivity).
  destruct (py_sum_from_zero (map2d cmat_abs a) (map (map2d cmat_abs) l'))
    as [tot [Htot [Hrt [Hct Hent]]]].
  { intros b Hb. apply in_map_iff in Hb. destruct Hb as [b' [<- Hb']].
    simpl. rewrite Har, Hac. apply Hshape. rewrite Htl. right. exact Hb'. }
  rewrite Htot. cbv beta iota delta [bind]. cbn [negb].
  simpl in Hrt, Hct, Hent. rewrite Har in Hrt, Hent. rewrite Hac in Hct, Hent.
  set (den := map2d (fun x => x + EPSILON) tot).
  assert (Hsum : forall i j, (i < rows mixture)%nat -> (j < cols mixture)%nat ->
             at2 tot i j
             = Rlist_sum (map (fun t => cmat_abs (at2 t i j)) targets_list)).
  { intros i j Hi Hj. rewrite (Hent i j Hi Hj). rewrite Htl. cbn [map].
    rewrite map_map. reflexivity. }
  destruct (mapM_ok (fun mat => bop2 Rdiv (map2d cmat_abs mat) den)
              (fun t m => forall i j, (i < rows mixture)%nat ->
                                      (j < cols mixture)%nat ->
                 at2 m i j = cmat_abs (at2 t i j) / (at2 tot i j + EPSILON))
              targets_list) as [l [Hl HF]].
  { intros t Ht. destruct (Hshape t Ht) as [Htr Htc].
    rewrite bop2_same_shape by (simpl; congruence).
    eexists. split; [reflexivity |].
    intros i j Hi Hj. simpl. rewrite Htr, Htc, Hrt, Hct. unbix. reflexivity. }
  rewrite Hl. exists l. split; [reflexivity |].
  split; [symmetry; exact (Forall2_length HF) |].
  intros i j Hi Hj. cbv zeta.
  set (S := Rlist_sum (map (fun t => cmat_abs (at2 t i j)) targets_list)).
  assert (HS : at2 tot i j = S) by (apply Hsum; assumption).
  assert (Hnn : Forall (fun y => 0 <= y)
                       (map (fun t => cmat_abs (at2 t i j)) targets_list)).
  { apply Forall_forall. intros y Hy. apply in_map_iff in Hy.
    destruct Hy as [t [<- _]]. apply Habs. }
  assert (HS0 : 0 <= S) by (apply Rlist_sum_nonneg; exact Hnn).
  assert (HF' : Forall2 (fun (t : Arr2 C) (m : Arr2 R) =>
                           at2 m i j = cmat_abs (at2 t i j) / (S + EPSILON))
                        targets_list l).
  { eapply Forall2_impl; [| exact HF].
    intros t m Hm. cbv beta in Hm. rewrite (Hm i j Hi Hj), HS. reflexivity. }
  assert (Hval : Rlist_sum (map (fun m => at2 m i j) l) = S / (S + EPSILON)).
  { apply (Rlist_sum_div (fun t : Arr2 C => cmat_abs (at2 t i j))
             (fun m : Arr2 R => at2 m i j) (S + EPSILON) _ _ HF'). }
  split; [| split; [exact Hval |]].
  - apply Forall_forall. intros m Hm.
    destruct (Forall2_in_r _ _ _ _ HF' Hm) as [t [Hin Heq]].
    assert (Hex : exists t, In t targets_list /\
                    at2 m i j = cmat_abs (at2 t i j) / (S + EPSILON)).
    { exists t. split; assumption. }
    clear t Hin Heq.
    destruct Hex as [t [Hin ->]].
    assert (Hle : cmat_abs (at2 t i j) <= S).
    { apply Rlist_sum_bound; [exact Hnn |].
      apply in_map_iff. exists t. split; [reflexivity | exact Hin]. }
    pose proof (Habs (at2 t i j)) as H0.
    split.
    + apply Rmult_le_pos; [exact H0 |].
      apply Rlt_le, Rinv_0_lt_compat. lra.
    + apply (Rmult_lt_reg_r (S + EPSILON)); [lra |].
      unfold Rdiv. rewrite Rmult_assoc, Rinv_l by lra. lra.
  - rewrite Hval. apply (Rmult_lt_reg_r (S + EPSILON)); [lra |].
    unfold Rdiv. rewrite Rmult_assoc, Rinv_l by lra. lra.
Qed.

Lemma Forall2_join {A B D : Type} (P : A -> B -> Prop) (Q : A -> D -> Prop)
      (Rel : B -> D -> Prop) (l : list A) (lb : list B) (ld : list D) :
  (forall a b d, P a b -> Q a d -> Rel b d) ->
  Forall2 P l lb -> Forall2 Q l ld -> Forall2 Rel lb ld.
Proof.
  intros H HP. revert ld.
  induction HP as [| a b l lb Hab _ IH]; intros ld HQ; inversion HQ; subst.
  - constructor.
  - constructor; [eapply H; eassumption | apply IH; assumption].
Qed.

Lemma bind_ok {A B : Type} (a : A) (k : A -> result B) :
  bind (Ok a) k = k a.
Proof. reflexivity. Qed.

(** X14. The phase-sensitive mask never exceeds the amplitude mask in
    magnitude: for targets of the mixture's shape, a non-negative magnitude
    and a positive [EPSILON], both mask types return one mask per target
    and in every cell |psm| <= iam. *)
Theorem compute_mask_psm_bound (mixture : Arr2 C)
        (targets_list : list (Arr2 C)) :
  0 < EPSILON -> (forall z, 0 <= cmat_abs z) ->
  (forall m, In m targets_list ->
             rows m = rows mixture /\ cols m = cols mixture) ->
  exists lp li,
    compute_mask mixture targets_list "psm" = Ok (RealMasks lp) /\
    compute_mask mixture targets_list "iam" = Ok (RealMasks li) /\
    List.length lp = List.length targets_list /\
    List.length li = List.length targets_list /\
    Forall2 (fun p q =>
               forall i j, (i < rows mixture)%nat -> (j < cols mixture)%nat ->
                           Rabs (at2 p i j) <= at2 q i j) lp li.
Proof.
  intros Heps Habs Hshape.
  set (den := map2d (fun z => cmat_abs z + EPSILON) mixture).
  destruct (mapM_ok
              (fun mat =>
                 d <- bop2 Rminus (map2d np_angle mixture)
                                  (map2d np_angle mat) ;;
                 p <- bop2 Rmult (map2d cmat_abs mat) (map2d cos d) ;;
                 bop2 Rdiv p den)
              (fun t m => forall i j, (i < rows mixture)%nat ->
                                      (j < cols mixture)%nat ->
                 at2 m i j
                 = cmat_abs (at2 t i j)
                   * cos (np_angle (at2 mixture i j) - np_angle (at2 t i j))
                   / (cmat_abs (at2 mixture i j) + EPSILON))
              targets_list) as [lp [Hlp HFp]].
  { intros t Ht. destruct (Hshape t Ht) as [Htr Htc].
    rewrite bop2_same_shape by (simpl; congruence).
    cbv beta iota delta [bind].
    rewrite bop2_same_shape by (simpl; congruence).
    cbv beta iota delta [bind].
    rewrite bop2_same_shape by (simpl; congruence).
    eexists. split; [reflexivity |].
    intros i j Hi Hj. simpl. rewrite Htr, Htc. unbix. reflexivity. }
  destruct (mapM_ok
              (fun mat => bop2 Rdiv (map2d cmat_abs mat) den)
              (fun t m => forall i j, (i < rows mixture)%nat ->
                                      (j < cols mixture)%nat ->
                 at2 m i j
                 = cmat_abs (at2 t i j)
                   / (cmat_abs (at2 mixture i j) + EPSILON))
              targets_list) as [li [Hli HFi]].
  { intros t Ht. destruct (Hshape t Ht) as [Htr Htc].
    rewrite bop2_same_shape by (simpl; congruence).
    eexists. split; [reflexivity |].
    intros i j Hi Hj. simpl. rewrite Htr, Htc. unbix. reflexivity. }
  exists lp, li.
  split.
  { unfold compute_mask. simpl String.eqb. cbv iota.
    rewrite bind_ok. cbn [negb]. cbv zeta. fold den. rewrite Hlp.
    reflexivity. }
  split.
  { unfold compute_mask. simpl String.eqb. cbv iota.
    rewrite bind_ok. cbn [negb]. fold den. rewrite Hli. reflexivity. }
  split; [symmetry; exact (Forall2_length HFp) |].
  split; [symmetry; exact (Forall2_length HFi) |].
  refine (Forall2_join _ _ _ _ _ _ _ HFp HFi).
  intros t p q Hp Hq i j Hi Hj. rewrite (Hp i j Hi Hj), (Hq i j Hi Hj).
  set (a := cmat_abs (at2 t i j)).
  set (c := cos (np_angle (at2 mixture i j) - np_angle (at2 t i j))).
  set (d := cmat_abs (at2 mixture i j) + EPSILON).
  assert (Ha : 0 <= a) by apply Habs.
  assert (Hd : 0 < d).
  { unfold d. pose proof (Habs (at2 mixture i j)). lra. }
  assert (Hc : Rabs c <= 1).
  { unfold c. apply Rabs_le. apply COS_bound. }
  unfold Rdiv. rewrite !Rabs_mult.
  rewrite (Rabs_pos_eq a Ha).
  rewrite (Rabs_pos_eq (/ d)) by (apply Rlt_le, Rinv_0_lt_compat; exact Hd).
  assert (Hid : 0 < / d) by (apply Rinv_0_lt_compat; exact Hd).
  assert (Had : 0 <= a * / d) by (apply Rmult_le_pos; lra).
  replace (a * Rabs c * / d) with (a * / d * Rabs c) by ring.
  rewrite <- (Rmult_1_r (a * / d)) at 2.
  apply Rmult_le_compat_l; [exact Had | exact Hc].
Qed.

(** ** Further properties of the spatial features *)

(** X16. Channel indices inside [-N, N), where [N] is the number of channels,
    never make a pair raise: its feature is computed, and a negative index
    counts from the last channel. *)
Theorem ipd_of_pair_in_range (s : Arr3 C) (c d : bool) (L R_ : Z) :
  (- Z.of_nat (dim0 s) <= L < Z.of_nat (dim0 s))%Z ->
  (- Z.of_nat (dim0 s) <= R_ < Z.of_nat (dim0 s))%Z ->
  ipd_of_pair s c d [L; R_]
  = Ok (ipd (channel s (py_wrap (dim0 s) L))
            (channel s (py_wrap (dim0 s) R_)) c d) /\
  (py_wrap (dim0 s) L < dim0 s)%nat /\ (py_wrap (dim0 s) R_ < dim0 s)%nat.
Proof.
  intros HL HR.
  assert (Hidx : forall i, (- Z.of_nat (dim0 s) <= i < Z.of_nat (dim0 s))%Z ->
             np_index (dim0 s) i = Ok (py_wrap (dim0 s) i) /\
             (py_wrap (dim0 s) i < dim0 s)%nat).
  { intros i Hi. unfold np_index, py_wrap.
    destruct (Z.leb_spec 0 i), (Z.ltb_spec i (Z.of_nat (dim0 s))),
      (Z.leb_spec (- Z.of_nat (dim0 s)) i), (Z.ltb_spec i 0);
      simpl; try lia; split; try reflexivity; lia. }
  destruct (Hidx L HL) as [HL1 HL2]. destruct (Hidx R_ HR) as [HR1 HR2].
  split; [| split; assumption].
  unfold ipd_of_pair.
  destruct (Z.ltb_spec (Z.of_nat (dim0 s)) R_); [lia |].
  rewrite HL1, HR1. reflexivity.
Qed.

(** X17. The explicit test on the right index misses the channel count itself:
    with a valid left index, a right index equal to the count is rejected
    by the array indexing ([IndexError]) and only a larger one by the test
    ([RuntimeError]). *)
Theorem ipd_of_pair_right_bound (s : Arr3 C) (c d : bool) (L R_ : Z) :
  (- Z.of_nat (dim0 s) <= L < Z.of_nat (dim0 s))%Z ->
  (R_ = Z.of_nat (dim0 s) ->
   ipd_of_pair s c d [L; R_] = Raise IndexError) /\
  ((Z.of_nat (dim0 s) < R_)%Z ->
   ipd_of_pair s c d [L; R_] = Raise RuntimeError).
Proof.
  intros HL. split; intros HR.
  - rewrite (ipd_of_pair_out s c d L R_) by lia.
    destruct (Z.ltb_spec (Z.of_nat (dim0 s)) R_); [lia | reflexivity].
  - rewrite (ipd_of_pair_out s c d L R_) by lia.
    destruct (Z.ltb_spec (Z.of_nat (dim0 s)) R_); [reflexivity | lia].
Qed.

(** X18. An entry of ["--ipd.pair"] that does not hold exactly two indices makes
    the IPD path raise. *)
Theorem ipd_feats_malformed_pair (args : Args) (S : spectrogram)
        (indexes : list Z) :
  type args = "ipd"%string ->
  In indexes (ipd_pair args) -> List.length indexes <> 2%nat ->
  raises (compute_spatial_feats args S).
Proof.
  intros Htype Hin Hlen. rewrite (compute_spatial_feats_ipd _ _ Htype).
  destruct S as [s | s]; simpl; [eexists; reflexivity |].
  assert (Hp : raises (ipd_of_pair s (ipd_cos args) (ipd_sin args) indexes)).
  { exists ValueError. unfold ipd_of_pair.
    destruct indexes as [| x [| y [| z l]]]; simpl in Hlen;
      try reflexivity; lia. }
  destruct (mapM_raises _ _ _ Hin Hp) as [e He]. rewrite He.
  exists e. reflexivity.
Qed.

(** ** Room simulation: speaker placement *)

Lemma Rmax_list_ge (l : list R) (x : R) :
  x <= fold_left Rmax l x /\ forall y, In y l -> y <= fold_left Rmax l x.
Proof.
  revert x. induction l as [| a l IH]; intros x; simpl.
  - split; [lra | intros y []].
  - destruct (IH (Rmax x a)) as [H1 H2].
    pose proof (Rmax_l x a). pose proof (Rmax_r x a).
    split; [lra |]. intros y [<- | Hy]; [lra | apply H2; exact Hy].
Qed.

Lemma py_max_ge (l : list R) (y : R) : In y l -> y <= py_max l.
Proof.
  destruct l as [| x l]; [intros [] |].
  intros [Heq | Hy]; simpl.
  - subst y. apply (proj1 (Rmax_list_ge l x)).
  - apply (proj2 (Rmax_list_ge l x)). exact Hy.
Qed.

(** X19. Every point of the floor of the room is within [_max_src_dist] of the
    centre of the array: no point of the room is farther than the farthest
    corner. *)
Theorem max_src_dist_covers_room (mx my rx ry px py : R) :
  0 <= px <= rx -> 0 <= py <= ry ->
  dist2d mx my (px, py) <= max_src_dist (mx, my) (rx, ry).
Proof.
  intros Hx Hy. unfold max_src_dist.
  assert (Hcx : exists xc, (xc = 0 \/ xc = rx) /\
                           (mx - px) ^ 2 <= (mx - xc) ^ 2).
  { destruct (Rle_dec (2 * mx) rx).
    - exists rx. split; [right; reflexivity | nra].
    - exists 0. split; [left; reflexivity | nra]. }
  assert (Hcy : exists yc, (yc = 0 \/ yc = ry) /\
                           (my - py) ^ 2 <= (my - yc) ^ 2).
  { destruct (Rle_dec (2 * my) ry).
    - exists ry. split; [right; reflexivity | nra].
    - exists 0. split; [left; reflexivity | nra]. }
  destruct Hcx as [xc [Hxc Hdx]]. destruct Hcy as [yc [Hyc Hdy]].
  apply Rle_trans with (dist2d mx my (xc, yc)).
  - unfold dist2d. simpl fst. simpl snd. apply sqrt_le_1_alt. lra.
  - apply py_max_ge. apply in_map.
    destruct Hxc as [-> | ->], Hyc as [-> | ->]; simpl; auto.
Qed.

Lemma place_spk_loop_inv (rnd : nat -> R) (args : SpkArgs)
      (mx my rx ry rz lo hi : R) (fuel : nat) :
  forall k done stats,
    done = List.length stats -> (done < num_rirs args)%nat ->
    Forall (fun st => exists sx sy sz dst,
                placed mx my rx ry rz st sx sy sz dst /\
                exists u, dst = uniform lo hi u /\ exists n, u = rnd n) stats ->
    let (done', stats') :=
      place_spk_loop rnd args mx my rx ry rz lo hi fuel k done stats in
    done' = List.length stats' /\ (done' <= num_rirs args)%nat /\
    Forall (fun st => exists sx sy sz dst,
                placed mx my rx ry rz st sx sy sz dst /\
                exists u, dst = uniform lo hi u /\ exists n, u = rnd n) stats'.
Proof.
  induction fuel as [| fuel IH]; intros k done stats Hlen Hlt Hall.
  - simpl. repeat split; [exact Hlen | lia | exact Hall].
  - cbn [place_spk_loop]. cbv zeta.
    destruct (Rle_dec rz _) as [Hz | Hz]; [apply IH; assumption |].
    destruct (Rle_dec _ 0) as [Hx0 | Hx0]; [apply IH; assumption |].
    destruct (Rle_dec rx _) as [Hx1 | Hx1]; [apply IH; assumption |].
    destruct (Rle_dec _ 0) as [Hy0 | Hy0]; [apply IH; assumption |].
    destruct (Rle_dec ry _) as [Hy1 | Hy1]; [apply IH; assumption |].
    set (sz := uniform _ _ (rnd k)) in *.
    set (dst := uniform lo hi (rnd (k + 1)%nat)) in *.
    set (doa := uniform 0 (PI * 2) (rnd (k + 2)%nat)) in *.
    set (stat := mkSpkStat _ _ _).
    assert (Hstat : exists sx sy sz0 dst0,
               placed mx my rx ry rz stat sx sy sz0 dst0 /\
               exists u, dst0 = uniform lo hi u /\ exists n, u = rnd n).
    { exists (mx + cos doa * dst), (my + sin doa * dst), sz, dst.
      split; [| exists (rnd (k + 1)%nat); split; [reflexivity | eauto]].
      unfold placed. cbn [stat_pos stat_dst stat].
      split; [reflexivity |]. split; [reflexivity |].
      split; [lra |]. split; [lra |]. split; [lra |].
      pose proof (sin2_cos2 doa) as Hsc. unfold Rsqr in Hsc.
      replace ((mx + cos doa * dst - mx) ^ 2 + (my + sin doa * dst - my) ^ 2)
        with ((sin doa * sin doa + cos doa * cos doa) * dst ^ 2) by ring.
      rewrite Hsc. ring. }
    assert (Hall' : Forall (fun st => exists sx sy sz dst,
                        placed mx my rx ry rz st sx sy sz dst /\
                        exists u, dst = uniform lo hi u /\ exists n, u = rnd n)
                      (stats ++ [stat])).
    { apply Forall_app. split; [exact Hall |]. constructor; [exact Hstat |].
      constructor. }
    assert (Hlen' : S done = List.length (stats ++ [stat])).
    { rewrite length_app. simpl. lia. }
    destruct (Nat.eqb_spec (S done) (num_rirs args)) as [Heq | Hne].
    + repeat split; [exact Hlen' | lia | exact Hall'].
    + apply IH; [exact Hlen' | lia | exact Hall'].
Qed.

(** X20. [_place_spk] never records more speakers than asked for, reports
    success exactly when it recorded [num_rirs] of them, and every
    recorded speaker was drawn strictly inside the floor of the room and
    below its ceiling, at the recorded distance from the centre of the
    array. *)
Theorem place_spk_sound (rnd : nat -> R) (args : SpkArgs)
        (mx my rx ry rz : R) :
  let (succ, stats) := place_spk rnd args (mx, my) (rx, ry, rz) in
  (List.length stats <= num_rirs args)%nat /\
  (succ = true <-> List.length stats = num_rirs args) /\
  Forall (fun st => exists sx sy sz dst,
              placed mx my rx ry rz st sx sy sz dst) stats.
Proof.
  unfold place_spk. destruct (src_dist args) as [lo hi0].
  set (hi := Rmin hi0 _).
  destruct (num_rirs args) as [| n] eqn:Hn.
  - rewrite Nat.mul_0_r. simpl. repeat split; auto.
  - pose proof (place_spk_loop_inv rnd args mx my rx ry rz lo hi
                  (retry args * S n) 0 0 [] eq_refl) as Hinv.
    rewrite Hn in Hinv. specialize (Hinv ltac:(lia) (Forall_nil _)).
    destruct (place_spk_loop rnd args mx my rx ry rz lo hi
                (retry args * S n) 0 0 []) as [done stats].
    destruct Hinv as [Hlen [Hle Hall]]. subst done.
    split; [exact Hle |]. split.
    + split; [intros H; apply Nat.eqb_eq; exact H |].
      intros H. apply Nat.eqb_eq. exact H.
    + eapply Forall_impl; [| exact Hall].
      intros st [sx [sy [sz [dst [Hp _]]]]]. eauto 6.
Qed.

(** X21. When the generator yields numbers of [0, 1) and the configured
    distances satisfy [0 <= min <= max], every speaker recorded by
    [_place_spk] lies at a horizontal distance from the centre of the array
    that is between the configured minimum and the smaller of the
    configured maximum and the distance to the farthest corner. *)
Theorem place_spk_distance (rnd : nat -> R) (args : SpkArgs)
        (mx my rx ry rz : R) :
  (forall n, 0 <= rnd n < 1) ->
  0 <= fst (src_dist args) ->
  fst (src_dist args)
  <= Rmin (snd (src_dist args)) (max_src_dist (mx, my) (rx, ry)) ->
  Forall (fun st => exists sx sy sz dst,
              placed mx my rx ry rz st sx sy sz dst /\
              dist2d mx my (sx, sy) = dst /\
              fst (src_dist args) <= dst
              <= Rmin (snd (src_dist args))
                      (max_src_dist (mx, my) (rx, ry)))
         (snd (place_spk rnd args (mx, my) (rx, ry, rz))).
Proof.
  intros Hrnd Hlo Hhi. unfold place_spk.
  destruct (src_dist args) as [lo hi0]. simpl fst in *. simpl snd in *.
  set (hi := Rmin hi0 _) in *.
  assert (Hgoal : forall stats,
             Forall (fun st => exists sx sy sz dst,
                         placed mx my rx ry rz st sx sy sz dst /\
                         exists u, dst = uniform lo hi u /\
                                   exists n, u = rnd n) stats ->
             Forall (fun st => exists sx sy sz dst,
                         placed mx my rx ry rz st sx sy sz dst /\
                         dist2d mx my (sx, sy) = dst /\ lo <= dst <= hi)
                    stats).
  { intros stats Hall. eapply Forall_impl; [| exact Hall].
    intros st [sx [sy [sz [dst [Hp [u [Hu [n Hn]]]]]]]].
    exists sx, sy, sz, dst. split; [exact Hp |].
    assert (Hd : lo <= dst <= hi).
    { subst dst u. unfold uniform. destruct (Hrnd n) as [H0 H1]. nra. }
    split; [| exact Hd].
    destruct Hp as [_ [_ [_ [_ [_ Hsq]]]]].
    unfold dist2d. simpl fst. simpl snd.
    replace ((mx - sx) ^ 2 + (my - sy) ^ 2) with (dst ^ 2) by (rewrite <- Hsq; ring).
    replace (dst ^ 2) with (Rsqr dst) by (unfold Rsqr; ring).
    apply sqrt_Rsqr. lra. }
  destruct (num_rirs args) as [| n] eqn:Hn.
  - rewrite Nat.mul_0_r. simpl. constructor.
  - pose proof (place_spk_loop_inv rnd args mx my rx ry rz lo hi
                  (retry args * S n) 0 0 [] eq_refl) as Hinv.
    rewrite Hn in Hinv. specialize (Hinv ltac:(lia) (Forall_nil _)).
    destruct (place_spk_loop rnd args mx my rx ry rz lo hi
                (retry args * S n) 0 0 []) as [done stats].
    destruct Hinv as [_ [_ Hall]].
    cbn [snd]. apply Hgoal. exact Hall.
Qed.

End Kernels.

(** ** The statements on concrete inputs *)


Lemma auxiva_update_energy_not_one_witness :
  exists Gr W W',
    auxiva_reach eps32 (const3 1 1 1 (RtoC 2)) 0 0 0 = Ok (Gr, W) /\
    auxiva_update 1 1 Gr (fun f t n => at3 (const3 1 1 1 (RtoC 2)) n t f)
                  0 0 W = Ok W' /\
    auxiva_wVw 1 (auxiva_V 1 Gr
                    (fun f t n => at3 (const3 1 1 1 (RtoC 2)) n t f) 0 0)
               (fun i => W' O i O)
    = RtoC (4 / (2 + eps32)) /\
    auxiva_wVw 1 (auxiva_V 1 Gr
                    (fun f t n => at3 (const3 1 1 1 (RtoC 2)) n t f) 0 0)
               (fun i => W' O i O)
    <> C1.
Proof.
  apply (auxiva_update_energy_not_one eps32); unfold eps32; lra.
Defined.

Lemma auxiva_zero_epochs_identity_witness :
  exists Y, auxiva eps32 (const3 2 3 4 (RtoC 2)) 0 = Ok Y /\
            arr3_eq Y (const3 2 3 4 (RtoC 2)).
Proof.
  apply (auxiva_zero_epochs_identity eps32 (const3 2 3 4 (RtoC 2)) 0).
  - lia.
  - simpl. lia.
Defined.

(** A spectrogram without frequency bins is not returned: the first
    [einsum] raises. *)
Lemma auxiva_zero_epochs_no_bins :
  (1 <= dim0 (const3 1 1 0 C1))%nat /\
  ~ (exists Y, auxiva eps32 (const3 1 1 0 C1) 0 = Ok Y /\
               arr3_eq Y (const3 1 1 0 C1)).
Proof.
  split; [simpl; lia |].
  intros [Y [H _]]. unfold auxiva in H. simpl in H. discriminate.
Qed.

Lemma ml_ssl_maximises_loglike_witness :
  exists i,
    ml_ssl Cabs ln Rpower (const3 2 3 4 C1) (const3 5 2 4 C1) 0 eps32 false
           None = Ok (Doa i) /\
    first_argmax 5
      (spec_ml_score ln Rpower
                     (spec_observed Cabs (const3 2 3 4 C1) eps32 false)
                     (spec_unit_bank (const3 5 2 4 C1)) 0 eps32
                     (fun _ _ => 1)) i.
Proof.
  apply (ml_ssl_maximises_loglike Cabs ln Rpower (const3 2 3 4 C1)
           (const3 5 2 4 C1) 0 eps32 false None).
  - reflexivity.
  - reflexivity.
  - simpl. lia.
  - exact I.
Defined.


Lemma ssl_bins_mismatch_raises_witness :
  ml_ssl Cabs ln Rpower (const3 2 3 4 C1) (const3 5 2 3 C1) 0 eps32 false
         None = Raise ValueError /\
  (srp_ssl (const3 2 3 4 C1) (const3 5 2 3 C1) (Some ([0%nat], [1%nat])) None
   = Raise ValueError \/
   srp_ssl (const3 2 3 4 C1) (const3 5 2 3 C1) (Some ([0%nat], [1%nat])) None
   = Raise IndexError) /\
  music_ssl eigh1 (const3 2 3 4 C1) (const3 5 2 3 C1) None = Raise ValueError.
Proof.
  apply (ssl_bins_mismatch_raises Cabs ln Rpower eigh1 (const3 2 3 4 C1)
           (const3 5 2 3 C1) 0 eps32 false None (Some ([0%nat], [1%nat]))
           None); simpl; lia.
Defined.

(** A bank with a single frequency bin is broadcast along the frequency
    axis of the spectrogram: the SRP estimator returns a direction. *)
Lemma srp_ssl_one_bin_bank_accepted :
  dim2 (const3 5 2 1 C1) <> dim2 (const3 2 3 4 C1) /\
  exists i,
    srp_ssl (const3 2 3 4 C1) (const3 5 2 1 C1) (Some ([0%nat], [1%nat])) None
    = Ok i.
Proof.
  split; [simpl; lia |].
  eexists. unfold srp_ssl. simpl. reflexivity.
Qed.


(** Outside the domain [reader_yields] the guard does not count channels:
    a 3-D array whose channel axis has length 1, which the reader does not
    yield, is not rejected, the pair ["0,0"] is computed. *)
Lemma ipd_feats_one_channel_accepted :
  (channels (Spec3 (const3 1 3 4 C1)) < 2)%nat /\
  exists feats,
    compute_spatial_feats (fun z => z) (fun _ _ _ _ _ _ => Raise ValueError)
      (fun _ _ => Raise ValueError) (ipd_args [[0%Z; 0%Z]])
      (Spec3 (const3 1 3 4 C1)) = Ok feats.
Proof.
  split; [simpl; lia |].
  eexists. unfold compute_spatial_feats. simpl. reflexivity.
Qed.

Lemma music_ssl_minimises_noise_energy_witness :
  music_ssl eigh_diag10 first_channel_only unit_bank2 None = Ok 1%nat.
Proof.
  destruct (music_ssl_minimises_noise_energy eigh_diag10 first_channel_only
              unit_bank2 None)
    as [i [top [Hi [Hdom [Hlt [Hmin _]]]]]].
  - intros f i j _ Hij. unfold spec_music_eigenvalue, eigh_diag10. simpl.
    apply le_INR. lia.
  - simpl. lia.
  - reflexivity.
  - reflexivity.
  - simpl. lia.
  - intros m Hm. discriminate.
  - rewrite Hi. f_equal.
    assert (Htop : forall f, (f < 4)%nat -> top f = 1%nat).
    { intros f Hf. destruct (Hdom f Hf) as [Hlt1 Hge].
      specialize (Hge 1%nat (le_n 2)).
      unfold spec_music_eigenvalue, eigh_diag10 in Hge. cbn [fst] in Hge.
      apply INR_le in Hge. simpl in Hlt1. lia. }
    assert (E0 : spec_music_energy eigh_diag10 first_channel_only
                   (mask_weight None) top unit_bank2 0 = 4).
    { unfold spec_music_energy, spec_music_eigenvector, eigh_diag10.
      cbn [dim0 dim2 first_channel_only snd Rsum].
      rewrite !Htop by lia. simpl.
      unfold Cabs2, Cadd, Cmul, Cconj, C0, C1. simpl. ring. }
    assert (E1 : spec_music_energy eigh_diag10 first_channel_only
                   (mask_weight None) top unit_bank2 1 = 0).
    { unfold spec_music_energy, spec_music_eigenvector, eigh_diag10.
      cbn [dim0 dim2 first_channel_only snd Rsum].
      rewrite !Htop by lia. simpl.
      unfold Cabs2, Cadd, Cmul, Cconj, C0, C1. simpl. ring. }
    simpl in Hlt.
    destruct i as [| [| i]]; [| reflexivity | lia].
    specialize (Hmin 1%nat (le_n 2)). rewrite E0, E1 in Hmin. lra.
Defined.

Lemma compute_mask_ibm_partition_witness :
  exists l,
    compute_mask eps32 Cabs (const2 3 4 C1)
                 [const2 3 4 C1; const2 3 4 C0] "ibm" = Ok (BoolMasks l) /\
    List.length l = 2%nat /\
    forall i j, (i < 3)%nat -> (j < 4)%nat ->
                list_sum (map (fun m => Nat.b2n (at2 m i j)) l) = 1%nat.
Proof.
  destruct (compute_mask_ibm_partition eps32 Cabs (const2 3 4 C1)
              [const2 3 4 C1; const2 3 4 C0])
    as [l [Hl [Hlen [_ Hcell]]]].
  - discriminate.
  - intros m [<- | [<- | []]]; simpl; auto.
  - exists l. split; [exact Hl |]. split; [exact Hlen |].
    intros i j Hi Hj. apply (Hcell i j Hi Hj).
Defined.

(** ** The further properties on concrete inputs *)

Lemma Cabs_nonneg (z : C) : 0 <= Cabs z.
Proof. unfold Cabs. apply sqrt_pos. Qed.

Lemma srp_ssl_maximises_score_witness :
  exists i,
    srp_ssl (const3 2 3 4 C1) (const3 5 2 4 C1) (Some ([0%nat], [1%nat])) None
    = Ok i /\
    first_argmax 5
      (spec_srp_score (const3 2 3 4 C1) (const3 5 2 4 C1) [0%nat] [1%nat]
                      (fun _ _ => 1)) i.
Proof.
  apply (srp_ssl_maximises_score (const3 2 3 4 C1) (const3 5 2 4 C1)
           [0%nat] [1%nat] None).
  - reflexivity.
  - reflexivity.
  - simpl. lia.
  - reflexivity.
  - simpl. lia.
  - intros i [<- | []]. simpl. lia.
  - intros i [<- | []]. simpl. lia.
  - intros m Hm. discriminate.
Defined.

Lemma srp_ssl_index_out_of_range_witness :
  srp_ssl (const3 2 3 4 C1) (const3 5 2 4 C1) (Some ([0%nat], [2%nat])) None
  = Raise IndexError.
Proof.
  apply (srp_ssl_index_out_of_range (const3 2 3 4 C1) (const3 5 2 4 C1)
           [0%nat] [2%nat] None 2).
  - right. left. reflexivity.
  - simpl. lia.
Defined.

Lemma srp_ssl_magnitude_invariant_witness :
  exists i,
    srp_ssl (const3 2 3 4 C1) (const3 5 2 4 C1) (Some ([0%nat], [1%nat])) None
    = Ok i /\
    srp_ssl (const3 2 3 4 (RtoC 2)) (const3 5 2 4 (RtoC 3))
            (Some ([0%nat], [1%nat])) None = Ok i.
Proof.
  apply (srp_ssl_magnitude_invariant (fun _ _ _ => 2) (fun _ _ _ => 3)
           (const3 2 3 4 C1) (const3 2 3 4 (RtoC 2))
           (const3 5 2 4 C1) (const3 5 2 4 (RtoC 3)) [0%nat] [1%nat] None).
  - unfold rescaled. simpl. repeat split; try lra.
    unfold Cscal, RtoC, C1. simpl. apply C_eq; simpl; ring.
  - unfold rescaled. simpl. repeat split; try lra.
    unfold Cscal, RtoC, C1. simpl. apply C_eq; simpl; ring.
  - reflexivity.
  - reflexivity.
  - simpl. lia.
  - reflexivity.
  - intros i [<- | []]. simpl. lia.
  - intros i [<- | []]. simpl. lia.
  - intros m Hm. discriminate.
Defined.

Lemma ml_ssl_one_cell_witness :
  exists i,
    ml_ssl Cabs ln Rpower (const3 2 3 4 C1) (const3 5 2 4 C1) 0 eps32 false
           (Some (Mask2 (one_cell_mask 3 4 1 2))) = Ok (Doa i) /\
    first_argmax 5
      (fun a => spec_ml_cell ln Rpower (const3 2 3 4 C1)
                             (sv_normalize (const3 5 2 4 C1)) 0 eps32 a 1 2) i.
Proof.
  apply (ml_ssl_one_cell Cabs ln Rpower (const3 2 3 4 C1) (const3 5 2 4 C1)
           0 eps32 false 1 2); simpl; try reflexivity; lia.
Defined.

Lemma ml_ssl_mask_scale_witness :
  exists i,
    ml_ssl Cabs ln Rpower (const3 2 3 4 C1) (const3 5 2 4 C1) 0 eps32 false
           (Some (Mask2 (np_ones 3 4))) = Ok (Doa i) /\
    ml_ssl Cabs ln Rpower (const3 2 3 4 C1) (const3 5 2 4 C1) 0 eps32 false
           (Some (Mask2 (scale_mask 7 (np_ones 3 4)))) = Ok (Doa i).
Proof.
  apply (ml_ssl_mask_scale Cabs ln Rpower (const3 2 3 4 C1) (const3 5 2 4 C1)
           0 eps32 7 false (np_ones 3 4)); simpl; try reflexivity; try lia.
  lra.
Defined.

Lemma ssl_empty_bank_raises_witness :
  ml_ssl Cabs ln Rpower (const3 2 3 4 C1) (const3 0 2 4 C1) 0 eps32 false None
  = Raise ValueError /\
  music_ssl eigh1 (const3 2 3 4 C1) (const3 0 2 4 C1) None = Raise ValueError.
Proof.
  apply (ssl_empty_bank_raises Cabs ln Rpower eigh1 (const3 2 3 4 C1)
           (const3 0 2 4 C1) 0 eps32 false None None).
  reflexivity.
Defined.

Lemma music_ssl_single_channel_witness :
  music_ssl eigh1 (const3 1 3 4 (RtoC 2)) (const3 5 1 4 C1) None = Ok O.
Proof.
  apply (music_ssl_single_channel eigh1 (const3 1 3 4 (RtoC 2))
           (const3 5 1 4 C1) None); simpl; try reflexivity; try lia.
  intros m Hm. discriminate.
Defined.

Lemma music_ssl_phase_invariant_witness :
  music_ssl eigh1 (const3 1 3 4 C1) (const3 5 1 4 (RtoC (-1))) None
  = music_ssl eigh1 (const3 1 3 4 C1) (const3 5 1 4 C1) None.
Proof.
  apply (music_ssl_phase_invariant eigh1 (fun _ _ => RtoC (-1))
           (const3 1 3 4 C1) (const3 5 1 4 C1) (const3 5 1 4 (RtoC (-1)))).
  - unfold scaled_bank. simpl. repeat split.
    intros a m f _ _ _. unfold Cmul, RtoC, C1. simpl. apply C_eq; simpl; ring.
  - intros a f _ _. unfold Cabs2, RtoC. simpl. ring.
Defined.

Lemma auxiva_silent_bin_fails_witness :
  auxiva eps32
         (mkArr3 2 3 4 (fun n t f => if (f =? 1)%nat then C0 else C1)) 20
  = Raise LinAlgError.
Proof.
  apply (auxiva_silent_bin_fails eps32
           (mkArr3 2 3 4 (fun n t f => if (f =? 1)%nat then C0 else C1))
           20 1); simpl; try lia.
  intros n t _ _. reflexivity.
Defined.

Lemma auxiva_sweep_bins_independent_witness :
  exists W',
    auxiva_sweep 1 1 1 (fun _ _ => 1) (fun _ _ _ => C1) auxiva_W0 = Ok W' /\
    (forall f, (f < 1)%nat ->
       exists Wf,
         for_range 1 (auxiva_update 1 1 (fun _ _ => 1) (fun _ _ _ => C1) f)
                   auxiva_W0 = Ok Wf /\
         W' f = Wf f) /\
    (forall f, (1 <= f)%nat -> W' f = auxiva_W0 f).
Proof.
  assert (Hrun : exists W',
             auxiva_sweep 1 1 1 (fun _ _ => 1) (fun _ _ _ => C1) auxiva_W0
             = Ok W').
  { unfold auxiva_sweep. cbn [for_range bind].
    unfold auxiva_update, np_linalg_solve.
    assert (Hdet : Cdet 1 (auxiva_WV 1 (auxiva_W0 0)
                             (auxiva_V 1 (fun _ _ => 1) (fun _ _ _ => C1) 0 0))
                   = C1).
    { simpl. unfold auxiva_WV, auxiva_V, auxiva_W0. simpl.
      unfold Cscal, Cmul, Cadd, Cconj, C0, C1. simpl.
      apply C_eq; simpl; field. }
    destruct (Ceq_dec _ C0) as [Hz | _].
    - exfalso. rewrite Hdet in Hz. apply (f_equal fst) in Hz.
      simpl in Hz. lra.
    - eexists. reflexivity. }
  destruct Hrun as [W' HW']. exists W'. split; [exact HW' |].
  apply (auxiva_sweep_bins_independent 1 1 1 (fun _ _ => 1)
           (fun _ _ _ => C1) auxiva_W0 W' HW').
Defined.

Lemma auxiva_column_energy_witness :
  auxiva_wVw 1 (fun _ _ => RtoC 2) (auxiva_column 1 (fun _ _ => RtoC 2)
                                                (fun _ => C1))
  = Cconj (Cinv (auxiva_wVw 1 (fun _ _ => RtoC 2) (fun _ => C1))).
Proof.
  apply (auxiva_column_energy 1 (fun _ _ => RtoC 2) (fun _ => C1)).
  unfold auxiva_wVw. simpl. intros H. apply (f_equal fst) in H.
  unfold Cmul, Cadd, Cconj, RtoC, C0, C1 in H. simpl in H. lra.
Defined.

Lemma compute_mask_ibm_dominant_witness :
  exists l,
    compute_mask eps32 Cabs (const2 3 4 C1)
                 [const2 3 4 C1; const2 3 4 (RtoC 2)] "ibm"
    = Ok (BoolMasks l) /\
    forall i j, (i < 3)%nat -> (j < 4)%nat ->
      exists s,
        at2 (nth s l (mkArr2 O O (fun _ _ => false))) i j = true /\
        first_argmax 2
          (fun k => Cabs (at2 (nth k [const2 3 4 C1; const2 3 4 (RtoC 2)]
                                   (const2 O O C0)) i j)) s.
Proof.
  apply (compute_mask_ibm_dominant eps32 Cabs (const2 3 4 C1)
           [const2 3 4 C1; const2 3 4 (RtoC 2)]).
  - discriminate.
  - intros m [<- | [<- | []]]; simpl; auto.
Defined.

Lemma compute_mask_no_target_witness :
  compute_mask eps32 Cabs (const2 3 4 C1) [] "ibm" = Raise ValueError /\
  compute_mask eps32 Cabs (const2 3 4 C1) [] "irm" = Ok (RealMasks []).
Proof.
  destruct (compute_mask_no_target eps32 Cabs (const2 3 4 C1) "irm")
    as [H1 H2].
  split; [exact H1 |]. apply H2. discriminate.
Defined.

Lemma compute_mask_irm_partition_witness :
  exists l,
    compute_mask eps32 Cabs (const2 3 4 C1)
                 [const2 3 4 C1; const2 3 4 (RtoC 2)] "irm"
    = Ok (RealMasks l) /\
    List.length l = 2%nat /\
    forall i j, (i < 3)%nat -> (j < 4)%nat ->
      Rlist_sum (map (fun m => at2 m i j) l) < 1.
Proof.
  destruct (compute_mask_irm_partition eps32 Cabs (const2 3 4 C1)
              [const2 3 4 C1; const2 3 4 (RtoC 2)])
    as [l [Hl [Hlen Hcell]]].
  - unfold eps32. lra.
  - apply Cabs_nonneg.
  - discriminate.
  - intros m [<- | [<- | []]]; simpl; auto.
  - exists l. split; [exact Hl |]. split; [exact Hlen |].
    intros i j Hi Hj. apply (Hcell i j Hi Hj).
Defined.

Lemma compute_mask_psm_bound_witness :
  exists lp li,
    compute_mask eps32 Cabs (const2 3 4 C1)
                 [const2 3 4 C1; const2 3 4 (RtoC 2)] "psm"
    = Ok (RealMasks lp) /\
    compute_mask eps32 Cabs (const2 3 4 C1)
                 [const2 3 4 C1; const2 3 4 (RtoC 2)] "iam"
    = Ok (RealMasks li) /\
    Forall2 (fun p q => forall i j, (i < 3)%nat -> (j < 4)%nat ->
                                    Rabs (at2 p i j) <= at2 q i j) lp li.
Proof.
  destruct (compute_mask_psm_bound eps32 Cabs (const2 3 4 C1)
              [const2 3 4 C1; const2 3 4 (RtoC 2)])
    as [lp [li [Hp [Hi [_ [_ HF]]]]]].
  - unfold eps32. lra.
  - apply Cabs_nonneg.
  - intros m [<- | [<- | []]]; simpl; auto.
  - exists lp, li. split; [exact Hp |]. split; [exact Hi | exact HF].
Defined.

Lemma ipd_of_pair_in_range_witness :
  ipd_of_pair (const3 2 3 4 C1) false false [0%Z; (-1)%Z]
  = Ok (ipd (channel (const3 2 3 4 C1) 0) (channel (const3 2 3 4 C1) 1)
            false false).
Proof.
  apply (ipd_of_pair_in_range (const3 2 3 4 C1) false false 0%Z (-1)%Z);
    simpl; lia.
Defined.

Lemma ipd_of_pair_right_bound_witness :
  ipd_of_pair (const3 2 3 4 C1) false false [0%Z; 2%Z] = Raise IndexError /\
  ipd_of_pair (const3 2 3 4 C1) false false [0%Z; 3%Z] = Raise RuntimeError.
Proof.
  split.
  - apply (proj1 (ipd_of_pair_right_bound (const3 2 3 4 C1) false false
                    0%Z 2%Z ltac:(simpl; lia))).
    reflexivity.
  - apply (proj2 (ipd_of_pair_right_bound (const3 2 3 4 C1) false false
                    0%Z 3%Z ltac:(simpl; lia))).
    simpl. lia.
Defined.

Lemma ipd_feats_malformed_pair_witness :
  raises (compute_spatial_feats (fun z => z)
            (fun _ _ _ _ _ _ => Raise ValueError)
            (fun _ _ => Raise ValueError) (ipd_args [[0%Z; 1%Z]; [1%Z]])
            (Spec3 (const3 2 3 4 C1))).
Proof.
  apply (ipd_feats_malformed_pair (fun z => z)
           (fun _ _ _ _ _ _ => Raise ValueError)
           (fun _ _ => Raise ValueError) (ipd_args [[0%Z; 1%Z]; [1%Z]])
           (Spec3 (const3 2 3 4 C1)) [1%Z]).
  - reflexivity.
  - simpl. right. left. reflexivity.
  - simpl. lia.
Defined.

Lemma max_src_dist_covers_room_witness :
  dist2d 1 2 (3, 1) <= max_src_dist (1, 2) (5, 4).
Proof.
  apply (max_src_dist_covers_room 1 2 5 4 3 1); lra.
Defined.

Lemma place_spk_distance_witness :
  Forall (fun st => exists sx sy sz dst,
              placed (fun x => x) 2 2 5 4 3 st sx sy sz dst /\
              dist2d 2 2 (sx, sy) = dst /\
              1 <= dst <= Rmin 1.5 (max_src_dist (2, 2) (5, 4)))
         (snd (place_spk (fun x => x) (fun _ => / 2)
                         (mkSpkArgs 2 10 (1, 1.5) (1, 2)) (2, 2) (5, 4, 3))).
Proof.
  apply (place_spk_distance (fun x => x) (fun _ => / 2)
           (mkSpkArgs 2 10 (1, 1.5) (1, 2)) 2 2 5 4 3).
  - intros n. lra.
  - cbn [fst snd src_dist]. lra.
  - cbn [fst snd src_dist]. apply Rmin_glb; [lra |].
    apply Rle_trans with (dist2d 2 2 (0, 0)).
    + unfold dist2d. cbn [fst snd].
      replace 1 with (sqrt 1) at 1 by apply sqrt_1.
      apply sqrt_le_1_alt. lra.
    + change (max_src_dist (2, 2) (5, 4))
        with (py_max (map (dist2d 2 2) [(0, 0); (0, 4); (5, 0); (5, 4)])).
      apply py_max_ge. left. reflexivity.
Defined.

Lemma auxiva_solve_failure_escapes_witness :
  auxiva_with eps32 np_linalg_solve (const3 1 1 1 C0) 1 = Raise LinAlgError.
Proof.
  apply (auxiva_solve_failure_escapes eps32 np_linalg_solve
           (const3 1 1 1 C0) 1 0 0 0
           (auxiva_Gr eps32
              (auxiva_R 1 (auxiva_einsum 1
                 (fun f t n => at3 (const3 1 1 1 C0) n t f) auxiva_W0)))
           auxiva_W0 LinAlgError).
  - simpl. lia.
  - simpl. lia.
  - simpl. lia.
  - reflexivity.
  - apply np_linalg_solve_singular.
    simpl. unfold auxiva_WV, auxiva_V, auxiva_W0. simpl.
    unfold Cscal, Cmul, Cadd, Cconj, C0, C1. simpl.
    apply C_eq; simpl; ring.
Defined.
